(** * resuMaster-AI: the resume editor, its optimisation service and its PDF layout pass

    A shallow embedding of [src/App.tsx], [src/services/geminiService.ts] and
    the earlier variants of both kept in [src/unnamed/part_001].

    Conventions.
    - A JavaScript string is the list of its UTF-16 code units ([jsstring]).
    - Lengths and coordinates are PDF points, kept as exact rationals ([Q]);
      the rounding of IEEE doubles is not modelled.
    - [font.widthOfTextAtSize] belongs to pdf-lib; it is a parameter of the
      layout pass. *)

From Stdlib Require Import Strings.String Strings.Ascii DecimalString.
From Stdlib Require Import List Bool Arith ZArith NArith QArith Lqa Lia.
Import ListNotations.
Close Scope Q_scope.

(* ================================================================== *)
(** * JavaScript strings *)

Module JS.

Definition char := N.
Definition jsstring := list char.

(** A string literal of the source, as code units. *)
Definition lit (s : string) : jsstring :=
  map N_of_ascii (list_ascii_of_string s).

Definition LF : char := 10%N.
Definition CR : char := 13%N.
Definition SPACE : char := 32%N.
Definition STAR : char := 42%N.

(** ECMAScript LineTerminator: the code units the regex [.] refuses. *)
Definition isLineTerminator (c : char) : bool :=
  (c =? 10)%N || (c =? 13)%N || (c =? 8232)%N || (c =? 8233)%N.

(** ECMAScript WhiteSpace and LineTerminator: what the regex class [\s]
    matches and what [trim] strips. *)
Definition isWhiteSpace (c : char) : bool :=
  (c =? 9)%N || (c =? 10)%N || (c =? 11)%N || (c =? 12)%N || (c =? 13)%N
  || (c =? 32)%N || (c =? 160)%N || (c =? 5760)%N
  || ((8192 <=? c)%N && (c <=? 8202)%N)
  || (c =? 8232)%N || (c =? 8233)%N || (c =? 8239)%N || (c =? 8287)%N
  || (c =? 12288)%N || (c =? 65279)%N.

Fixpoint trimStart (s : jsstring) : jsstring :=
  match s with
  | c :: t => if isWhiteSpace c then trimStart t else s
  | [] => []
  end.

Definition trimEnd (s : jsstring) : jsstring := rev (trimStart (rev s)).

Definition trim (s : jsstring) : jsstring := trimEnd (trimStart s).

Definition isEmpty (s : jsstring) : bool :=
  match s with [] => true | _ :: _ => false end.

Fixpoint eqb (a b : jsstring) : bool :=
  match a, b with
  | [], [] => true
  | x :: a', y :: b' => (x =? y)%N && eqb a' b'
  | _, _ => false
  end.

Fixpoint startsWith (s p : jsstring) {struct p} : bool :=
  match p, s with
  | [], _ => true
  | x :: p', y :: s' => (x =? y)%N && startsWith s' p'
  | _ :: _, [] => false
  end.

Definition endsWith (s p : jsstring) : bool := startsWith (rev s) (rev p).

(** [s.substring(n)] *)
Definition substring (n : nat) (s : jsstring) : jsstring := skipn n s.

(** [s.slice(2, -2)]: from index [min 2 len] up to index [max (len - 2) 0]. *)
Definition slice_2_m2 (s : jsstring) : jsstring :=
  let len := length s in
  let from := Nat.min 2 len in
  let to := len - 2 in
  firstn (to - from) (skipn from s).

(** [s.replace(p, '')] with a string pattern: the first occurrence of [p]
    is removed. *)
Fixpoint removeFirst (p s : jsstring) : jsstring :=
  if startsWith s p then skipn (length p) s
  else match s with
       | [] => []
       | c :: t => c :: removeFirst p t
       end.

(** [s.split('\n')] and the like: split on every occurrence of one code
    unit. *)
Fixpoint splitOn (sep : char) (s : jsstring) : list jsstring :=
  match s with
  | [] => [[]]
  | c :: t =>
      if (c =? sep)%N then [] :: splitOn sep t
      else match splitOn sep t with
           | piece :: rest => (c :: piece) :: rest
           | [] => [[c]]
           end
  end.

(** [s.split(/(\s+)/)]: the pieces between whitespace runs, with every run
    kept as an element of its own (the capture group). [cur] is the piece
    being read and [inWs] tells whether it is a whitespace run. *)
Fixpoint splitWs_go (inWs : bool) (cur : jsstring) (s : jsstring)
  : list jsstring :=
  match s with
  | [] => if inWs then [cur; []] else [cur]
  | c :: t =>
      if Bool.eqb (isWhiteSpace c) inWs then splitWs_go inWs (cur ++ [c]) t
      else cur :: splitWs_go (isWhiteSpace c) [c] t
  end.

Definition splitWs (s : jsstring) : list jsstring := splitWs_go false [] s.

(** After an opening [**] of the regex [\*\*.*?\*\*]: the lazy [.*?] stops
    at the first following [**] and fails on a line terminator. The result
    is the text between the markers and what follows the closing marker. *)
Fixpoint closeBold (s : jsstring) : option (jsstring * jsstring) :=
  match s with
  | c1 :: ((c2 :: r) as t) =>
      if (c1 =? STAR)%N && (c2 =? STAR)%N then Some ([], r)
      else if isLineTerminator c1 then None
      else match closeBold t with
           | Some (body, rest) => Some (c1 :: body, rest)
           | None => None
           end
  | _ => None
  end.

(** One match of [\*\*.*?\*\*] anchored at the start of [s]: the matched
    text and the rest. *)
Definition matchBold (s : jsstring) : option (jsstring * jsstring) :=
  match s with
  | c1 :: c2 :: t =>
      if (c1 =? STAR)%N && (c2 =? STAR)%N then
        match closeBold t with
        | Some (body, rest) => Some (STAR :: STAR :: body ++ [STAR; STAR], rest)
        | None => None
        end
      else None
  | _ => None
  end.

(** [s.split] on the global regex [\*\*.*?\*\*] wrapped in a capture group:
    the text before each match, the match itself, and the text after the
    last match. [acc] is the unmatched text read since the last match. *)
Fixpoint splitBold_go (fuel : nat) (acc s : jsstring) : list jsstring :=
  match fuel with
  | O => [acc ++ s]
  | S fuel' =>
      match s with
      | [] => [acc]
      | c :: t =>
          match matchBold s with
          | Some (m, rest) => acc :: m :: splitBold_go fuel' [] rest
          | None => splitBold_go fuel' (acc ++ [c]) t
          end
      end
  end.

Definition splitBold (s : jsstring) : list jsstring :=
  splitBold_go (S (length s)) [] s.

(** The same split followed by [.filter(s => s !== '')]. *)
Definition boldSegments (text : jsstring) : list jsstring :=
  filter (fun s => negb (isEmpty s)) (splitBold text).

End JS.

(* ================================================================== *)
(** * The PDF layout pass of [handleDownloadPDF] (src/App.tsx) *)

Module Pdf.
Import JS.
Local Open Scope Q_scope.

(** ** The part of pdf-lib the pass uses *)

Inductive Font := Helvetica | HelveticaBold.

Record Color := rgb { red : Q; green : Q; blue : Q }.

Inductive Align := AlignLeft | AlignCenter.

(** What [page.drawText] and [page.drawLine] leave on a page. A [drawText]
    without a [color] option records [None]. *)
Inductive Op :=
| DrawText (text : jsstring) (x y size : Q) (font : Font) (color : option Color)
| DrawLine (startX startY endX endY thickness : Q) (color : Color).

Definition Page := list Op.

(** The mutable variables of the pass: the pages of [pdfDoc] added before
    the current one, the current [page], and [currentY]. *)
Record Layout := mkLayout {
  earlier : list Page;
  page : Page;
  currentY : Q
}.

Definition pages (st : Layout) : list Page := earlier st ++ [page st].

(** [page.getSize()] of an A4 page added with [[595.28, 841.89]]. *)
Definition width : Q := 595.28.
Definition height : Q := 841.89.
Definition margin : Q := 50.

Definition Qltb (x y : Q) : bool := (Qnum x * QDen y <? Qnum y * QDen x)%Z.

(** [page = pdfDoc.addPage([595.28, 841.89]); currentY = height - margin;] *)
Definition newPage (st : Layout) : Layout :=
  {| earlier := earlier st ++ [page st];
     page := [];
     currentY := height - margin |}.

(** [if (currentY < margin + 20) { ...new page... }] *)
Definition breakIfLow (st : Layout) : Layout :=
  if Qltb (currentY st) (margin + 20) then newPage st else st.

Definition draw (op : Op) (st : Layout) : Layout :=
  {| earlier := earlier st; page := page st ++ [op]; currentY := currentY st |}.

Definition moveDown (d : Q) (st : Layout) : Layout :=
  {| earlier := earlier st; page := page st; currentY := currentY st - d |}.

(** [word.trim() !== ''] *)
Definition nonBlank (word : jsstring) : bool := negb (isEmpty (trim word)).

(** [seg.startsWith('**') && seg.endsWith('**')] *)
Definition isBoldSegment (seg : jsstring) : bool :=
  startsWith seg [STAR; STAR] && endsWith seg [STAR; STAR].

Definition cleanText (seg : jsstring) : jsstring :=
  if isBoldSegment seg then slice_2_m2 seg else seg.

(** ** [drawRichText] *)

Record Options := mkOptions {
  opt_size : option Q;
  opt_defaultFont : option Font;
  opt_color : option Color;
  opt_align : option Align
}.

(** An element of a wrapped line: [{ text, isBold, width }]. *)
Record Seg := mkSeg { seg_text : jsstring; seg_isBold : bool; seg_width : Q }.

Section Metrics.

(** [font.widthOfTextAtSize(text, size)] of pdf-lib. *)
Variable widthOfTextAtSize : Font -> jsstring -> Q -> Q.

(** The tokens of one segment: [cleanText.split(/(\s+)/)], each measured
    with the font of the segment. *)
Definition segmentTokens (defaultFont : Font) (size : Q) (seg : jsstring)
  : list Seg :=
  let isBold := isBoldSegment seg in
  let font := if isBold then HelveticaBold else defaultFont in
  map (fun word => mkSeg word isBold (widthOfTextAtSize font word size))
      (splitWs (cleanText seg)).

(** [lines[lines.length - 1].push(x)] *)
Fixpoint pushToLast {A : Type} (lines : list (list A)) (x : A)
  : list (list A) :=
  match lines with
  | [] => []
  | [l] => [l ++ [x]]
  | l :: rest => l :: pushToLast rest x
  end.

(** The body of [words.forEach]: the state is [lines] and
    [currentLineWidth]. *)
Definition wrapWord (maxWidth : Q) (st : list (list Seg) * Q) (tok : Seg)
  : list (list Seg) * Q :=
  let '(lines, currentLineWidth) := st in
  let '(lines, currentLineWidth) :=
    if Qltb maxWidth (currentLineWidth + seg_width tok)
       && nonBlank (seg_text tok)
    then (lines ++ [[]], 0)
    else (lines, currentLineWidth) in
  (pushToLast lines tok, currentLineWidth + seg_width tok).

(** [segments.forEach(seg => ... words.forEach(word => ...))], started from
    [lines = [[]]] and [currentLineWidth = 0]. *)
Definition wrapSegments (maxWidth size : Q) (defaultFont : Font)
  (segments : list jsstring) : list (list Seg) * Q :=
  fold_left
    (fun st seg => fold_left (wrapWord maxWidth) (segmentTokens defaultFont size seg) st)
    segments ([[]], 0).

Definition fullLineWidth (lineSegments : list Seg) : Q :=
  fold_left (fun acc seg => acc + seg_width seg) lineSegments 0.

(** The body of [lines.forEach(lineSegments => ...)] in [drawRichText]. *)
Definition placeLine (size : Q) (defaultFont : Font) (color : Color)
  (align : Align) (st : Layout) (lineSegments : list Seg) : Layout :=
  let st := breakIfLow st in
  let startX :=
    match align with
    | AlignCenter => (width - fullLineWidth lineSegments) / 2
    | AlignLeft => margin
    end in
  let '(st, _) :=
    fold_left
      (fun '(st, cursorX) seg =>
         let font := if seg_isBold seg then HelveticaBold else defaultFont in
         (draw (DrawText (seg_text seg) cursorX (currentY st) size font (Some color)) st,
          cursorX + seg_width seg))
      lineSegments (st, startX) in
  moveDown (size * 1.5) st.

Definition drawRichText (text : jsstring) (options : Options) (st : Layout)
  : Layout :=
  let size :=
    match opt_size options with
    | Some s => if Qeq_bool s 0 then 10 else s
    | None => 10
    end in
  let defaultFont :=
    match opt_defaultFont options with Some f => f | None => Helvetica end in
  let color :=
    match opt_color options with Some c => c | None => rgb 0 0 0 end in
  let align :=
    match opt_align options with Some a => a | None => AlignLeft end in
  let maxWidth := width - (margin * 2) in
  let segments := boldSegments text in
  let '(lines, _) := wrapSegments maxWidth size defaultFont segments in
  let st := fold_left (placeLine size defaultFont color align) lines st in
  moveDown (size * 0.4) st.

(** ** The bullet branch *)

Definition bulletGlyph : jsstring := [8226%N].
Definition bulletSize : Q := 10.
Definition bulletMargin : Q := margin + 15.
Definition bulletMaxWidth : Q := width - bulletMargin - margin.

(** [let cX = bulletMargin; lineWords.forEach(lw => { drawText; cX += ... })] *)
Definition drawLineWords (lineWords : list (jsstring * Font)) (st : Layout)
  : Layout :=
  fst (fold_left
         (fun '(st, cX) lw =>
            (draw (DrawText (fst lw) cX (currentY st) bulletSize (snd lw) None) st,
             cX + widthOfTextAtSize (snd lw) (fst lw) bulletSize))
         lineWords (st, bulletMargin)).

(** The body of [words.forEach(w => ...)] of the bullet branch: the state
    is the layout, [lineWords] and [currentW]. *)
Definition bulletWord (fnt : Font)
  (acc : Layout * list (jsstring * Font) * Q) (w : jsstring)
  : Layout * list (jsstring * Font) * Q :=
  let '(st, lineWords, currentW) := acc in
  let wW := widthOfTextAtSize fnt w bulletSize in
  let '(st, lineWords, currentW) :=
    if Qltb bulletMaxWidth (currentW + wW) && nonBlank w
    then (breakIfLow (moveDown (bulletSize * 1.5) (drawLineWords lineWords st)),
          [], 0)
    else (st, lineWords, currentW) in
  (st, lineWords ++ [(w, fnt)], currentW + wW).

Definition bulletSegment (acc : Layout * list (jsstring * Font) * Q)
  (seg : jsstring) : Layout * list (jsstring * Font) * Q :=
  let fnt := if isBoldSegment seg then HelveticaBold else Helvetica in
  fold_left (bulletWord fnt) (splitWs (cleanText seg)) acc.

Definition drawBullet (line : jsstring) (st : Layout) : Layout :=
  let bulletContent := substring 2 line in
  let st := draw (DrawText bulletGlyph margin (currentY st) 12 Helvetica None) st in
  let segments := boldSegments bulletContent in
  let '(st, lineWords, _) := fold_left bulletSegment segments (st, [], 0) in
  moveDown (bulletSize * 1.7) (drawLineWords lineWords st).

(** ** The loop over the lines of the exported text *)

Definition titleMark : jsstring := lit "# ".
Definition sectionMark : jsstring := lit "## ".
Definition subsectionMark : jsstring := lit "### ".

(** The body of [for (let i = 0; i < lines.length; i++)]. *)
Definition renderLine (lines : list jsstring) (i : nat) (st : Layout)
  : Layout :=
  let line := trim (nth i lines []) in
  if isEmpty line then moveDown 8 st
  else if startsWith line titleMark then
    moveDown 10
      (drawRichText (removeFirst titleMark line)
         (mkOptions (Some 22) (Some HelveticaBold) None (Some AlignCenter)) st)
  else if startsWith line sectionMark then
    let st := moveDown 12 st in
    let sectionTitle := removeFirst sectionMark line in
    let st :=
      drawRichText sectionTitle
        (mkOptions (Some 12) (Some HelveticaBold) (Some (rgb 0.1 0.2 0.4)) None)
        st in
    let st :=
      draw (DrawLine margin (currentY st + 14) (width - margin) (currentY st + 14)
              1 (rgb 0.8 0.8 0.8)) st in
    moveDown 6 st
  else if startsWith line subsectionMark then
    drawRichText (removeFirst subsectionMark line)
      (mkOptions (Some 11) (Some HelveticaBold) None None) st
  else if startsWith line (lit "- ") || startsWith line (lit "* ") then
    drawBullet line st
  else
    let isContact :=
      (0 <? i)%nat && startsWith (nth (i - 1) lines []) titleMark in
    drawRichText line
      (mkOptions (Some 10) (Some Helvetica)
         (Some (if isContact then rgb 0.3 0.3 0.3 else rgb 0 0 0))
         (Some (if isContact then AlignCenter else AlignLeft)))
      st.

(** The first page and the cursor the pass starts from. *)
Definition initialLayout : Layout :=
  {| earlier := []; page := []; currentY := height - margin |}.

(** The whole pass over [contentToExport]: the pages of the document that
    is saved. *)
Definition layoutPass (contentToExport : jsstring) : Layout :=
  let lines := splitOn LF contentToExport in
  fold_left (fun st i => renderLine lines i st)
    (seq 0 (List.length lines)) initialLayout.

End Metrics.

End Pdf.

(* ================================================================== *)
(** * JSON values and [JSON.parse] *)

Module Json.
Import JS.

#[warnings="-register-all"]
Inductive json :=
| JNull
| JBool (b : bool)
| JNumber (lexeme : jsstring)
| JString (s : jsstring)
| JArray (items : list json)
| JObject (members : list (jsstring * json)).

Definition QUOTE : char := 34%N.

Definition quoted (s : jsstring) : jsstring := QUOTE :: s ++ [QUOTE].

Definition isJsonWs (c : char) : bool :=
  (c =? 32)%N || (c =? 9)%N || (c =? 10)%N || (c =? 13)%N.

Fixpoint skipWs (s : jsstring) : jsstring :=
  match s with
  | c :: t => if isJsonWs c then skipWs t else s
  | [] => []
  end.

Definition isDigit (c : char) : bool := (48 <=? c)%N && (c <=? 57)%N.

Definition hexValue (c : char) : option N :=
  if isDigit c then Some (c - 48)%N
  else if (97 <=? c)%N && (c <=? 102)%N then Some (c - 87)%N
  else if (65 <=? c)%N && (c <=? 70)%N then Some (c - 55)%N
  else None.

Definition hex4 (a b c d : char) : option char :=
  match hexValue a, hexValue b, hexValue c, hexValue d with
  | Some x, Some y, Some z, Some w => Some (((x * 16 + y) * 16 + z) * 16 + w)%N
  | _, _, _, _ => None
  end.

(** The character an escape letter stands for. *)
Definition unescape (e : char) : option char :=
  if (e =? 34)%N then Some 34%N
  else if (e =? 92)%N then Some 92%N
  else if (e =? 47)%N then Some 47%N
  else if (e =? 98)%N then Some 8%N
  else if (e =? 102)%N then Some 12%N
  else if (e =? 110)%N then Some 10%N
  else if (e =? 114)%N then Some 13%N
  else if (e =? 116)%N then Some 9%N
  else None.

(** The characters of a string after its opening quote, up to the closing
    quote. *)
Fixpoint parseChars (s : jsstring) : option (jsstring * jsstring) :=
  match s with
  | [] => None
  | c :: t =>
      if (c =? 34)%N then Some ([], t)
      else if (c =? 92)%N then
        match t with
        | [] => None
        | e :: t' =>
            if (e =? 117)%N then
              match t' with
              | h1 :: h2 :: h3 :: h4 :: t'' =>
                  match hex4 h1 h2 h3 h4, parseChars t'' with
                  | Some u, Some (r, rest) => Some (u :: r, rest)
                  | _, _ => None
                  end
              | _ => None
              end
            else
              match unescape e, parseChars t' with
              | Some u, Some (r, rest) => Some (u :: r, rest)
              | _, _ => None
              end
        end
      else if (c <? 32)%N then None
      else match parseChars t with
           | Some (r, rest) => Some (c :: r, rest)
           | None => None
           end
  end.

Fixpoint takeDigits (s : jsstring) : jsstring * jsstring :=
  match s with
  | c :: t =>
      if isDigit c then let '(d, rest) := takeDigits t in (c :: d, rest)
      else ([], s)
  | [] => ([], [])
  end.

(** The lexeme of a number: sign, integer part without a leading zero,
    fraction, exponent. *)
Definition parseNumber (s : jsstring) : option (jsstring * jsstring) :=
  let '(sign, s1) :=
    match s with
    | c :: t => if (c =? 45)%N then ([c], t) else ([], s)
    | [] => ([], s)
    end in
  let intPart :=
    match s1 with
    | c :: t =>
        if (c =? 48)%N then Some ([c], t)
        else if isDigit c then let '(d, rest) := takeDigits t in Some (c :: d, rest)
        else None
    | [] => None
    end in
  match intPart with
  | None => None
  | Some (int, s2) =>
      let frac :=
        match s2 with
        | c :: t =>
            if (c =? 46)%N then
              match takeDigits t with
              | ([], _) => None
              | (d, rest) => Some (c :: d, rest)
              end
            else Some ([], s2)
        | [] => Some ([], s2)
        end in
      match frac with
      | None => None
      | Some (fr, s3) =>
          let expo :=
            match s3 with
            | c :: t =>
                if (c =? 101)%N || (c =? 69)%N then
                  let '(sg, t1) :=
                    match t with
                    | x :: t' =>
                        if (x =? 43)%N || (x =? 45)%N then ([x], t') else ([], t)
                    | [] => ([], t)
                    end in
                  match takeDigits t1 with
                  | ([], _) => None
                  | (d, rest) => Some (c :: sg ++ d, rest)
                  end
                else Some ([], s3)
            | [] => Some ([], s3)
            end in
          match expo with
          | None => None
          | Some (ex, s4) => Some (sign ++ int ++ fr ++ ex, s4)
          end
      end
  end.

(** Recursive descent over values, array elements and object members; one
    unit of [fuel] is spent per call. *)
Fixpoint parseValue (fuel : nat) (s : jsstring) {struct fuel}
  : option (json * jsstring) :=
  match fuel with
  | O => None
  | S fuel' =>
      match skipWs s with
      | [] => None
      | c :: t =>
          if (c =? 123)%N then
            match skipWs t with
            | d :: r => if (d =? 125)%N then Some (JObject [], r)
                        else parseMembers fuel' [] t
            | [] => None
            end
          else if (c =? 91)%N then
            match skipWs t with
            | d :: r => if (d =? 93)%N then Some (JArray [], r)
                        else parseElements fuel' [] t
            | [] => None
            end
          else if (c =? 34)%N then
            match parseChars t with
            | Some (str, rest) => Some (JString str, rest)
            | None => None
            end
          else if startsWith (c :: t) (lit "true") then Some (JBool true, skipn 4 (c :: t))
          else if startsWith (c :: t) (lit "false") then Some (JBool false, skipn 5 (c :: t))
          else if startsWith (c :: t) (lit "null") then Some (JNull, skipn 4 (c :: t))
          else
            match parseNumber (c :: t) with
            | Some (lexeme, rest) => Some (JNumber lexeme, rest)
            | None => None
            end
      end
  end
with parseElements (fuel : nat) (acc : list json) (s : jsstring) {struct fuel}
  : option (json * jsstring) :=
  match fuel with
  | O => None
  | S fuel' =>
      match parseValue fuel' s with
      | None => None
      | Some (v, rest) =>
          match skipWs rest with
          | d :: r =>
              if (d =? 44)%N then parseElements fuel' (acc ++ [v]) r
              else if (d =? 93)%N then Some (JArray (acc ++ [v]), r)
              else None
          | [] => None
          end
      end
  end
with parseMembers (fuel : nat) (acc : list (jsstring * json)) (s : jsstring)
  {struct fuel} : option (json * jsstring) :=
  match fuel with
  | O => None
  | S fuel' =>
      match skipWs s with
      | q :: t =>
          if (q =? 34)%N then
            match parseChars t with
            | None => None
            | Some (key, rest) =>
                match skipWs rest with
                | colon :: rest' =>
                    if (colon =? 58)%N then
                      match parseValue fuel' rest' with
                      | None => None
                      | Some (v, rest'') =>
                          match skipWs rest'' with
                          | d :: r =>
                              if (d =? 44)%N then
                                parseMembers fuel' (acc ++ [(key, v)]) r
                              else if (d =? 125)%N then
                                Some (JObject (acc ++ [(key, v)]), r)
                              else None
                          | [] => None
                          end
                      end
                    else None
                | [] => None
                end
            end
          else None
      | [] => None
      end
  end.

(** [JSON.parse(text)]; [None] stands for the SyntaxError it throws. *)
Definition parse (text : jsstring) : option json :=
  match parseValue (2 * List.length text + 2) text with
  | Some (v, rest) => if isEmpty (skipWs rest) then Some v else None
  | None => None
  end.

(** [obj[key]] on the members [JSON.parse] built: a repeated key keeps its
    last value. *)
Fixpoint lookup (key : jsstring) (members : list (jsstring * json))
  : option json :=
  match members with
  | [] => None
  | (k, v) :: rest =>
      match lookup key rest with
      | Some v' => Some v'
      | None => if eqb k key then Some v else None
      end
  end.

End Json.

(* ================================================================== *)
(** * [GeminiService.optimizeResume] *)

Module Gemini.
Import JS Json.

(** What the awaited [ai.models.generateContent] call does: it throws, or
    it answers with a response whose [text] may be undefined. *)
Inductive ApiOutcome :=
| ApiThrows (message : jsstring)
| ApiResponds (text : option jsstring).

(** How an awaited promise settles; a rejection carries the message of the
    [Error] it was rejected with. *)
Inductive Settled (A : Type) :=
| Resolved (value : A)
| Rejected (message : jsstring).
Arguments Resolved {A} value.
Arguments Rejected {A} message.

(** [a || b] on strings: the empty string is falsy. *)
Definition orElse (a b : jsstring) : jsstring :=
  if isEmpty a then b else a.

Section Service.

(** [JSON.parse]; [None] is a thrown SyntaxError, whose message is
    [syntaxErrorMessage text]. *)
Variable JSON_parse : jsstring -> option json.
Variable syntaxErrorMessage : jsstring -> jsstring.

(** src/services/geminiService.ts. Whatever is thrown inside [try] is
    replaced by one fixed error. *)
Definition optimizeResume (api : ApiOutcome) : Settled json :=
  let failure :=
    Rejected (lit "Failed to optimize resume. Please check your input and try again.") in
  match api with
  | ApiThrows _ => failure
  | ApiResponds text =>
      let text :=
        match text with
        | Some t => orElse t (lit "{}")
        | None => lit "{}"
        end in
      match JSON_parse text with
      | Some result => Resolved result
      | None => failure
      end
  end.

(** The variant of src/unnamed/part_001: an empty response text is an
    error, and the message of what was thrown is passed on. *)
Definition optimizeResume_part001 (api : ApiOutcome) : Settled json :=
  let failure (message : jsstring) :=
    Rejected
      (lit "Optimization failed: " ++ orElse message (lit "Unknown error")
         ++ lit ". Please try again.") in
  match api with
  | ApiThrows message => failure message
  | ApiResponds text =>
      match text with
      | None => failure (lit "No response text received from AI.")
      | Some t =>
          if isEmpty t then failure (lit "No response text received from AI.")
          else match JSON_parse t with
               | Some result => Resolved result
               | None => failure (syntaxErrorMessage t)
               end
      end
  end.

End Service.

(** The [required] list of the response schema sent with the request. *)
Definition requiredFields : list jsstring :=
  [lit "optimizedContent"; lit "keyChanges"; lit "suggestedSkills"; lit "atsScore"].

(** A value that is an object with every required field present. *)
Definition hasRequiredFields (v : json) : bool :=
  match v with
  | JObject members =>
      forallb (fun f => match lookup f members with Some _ => true | None => false end)
        requiredFields
  | _ => false
  end.

End Gemini.

(* ================================================================== *)
(** * The component state and its handlers *)

Module App.
Import JS Json Gemini.

Inductive Step := Step1 | Step2.

Inductive SeniorityLevel := ENTRY | JUNIOR | MID | SENIOR | LEAD | EXECUTIVE.

(** A value held at run time: [undefined] or what [JSON.parse] can build
    (a string of the editor is [Value (JString s)]). *)
Inductive jsvalue :=
| Undefined
| Value (j : json).

Definition str (s : jsstring) : jsvalue := Value (JString s).

(** The [useState] cells of [App]. [result] is [JNull] for [null].
    [fileParsing] exists in the part_001 variant only, [jobDescription] in
    src/App.tsx only. *)
Record AppState := mkApp {
  step : Step;
  loading : bool;
  fileParsing : bool;
  downloading : bool;
  error : option jsstring;
  inputContent : jsvalue;
  targetTitle : jsstring;
  jobDescription : jsstring;
  seniority : SeniorityLevel;
  context : jsstring;
  result : json
}.

Definition setStep (v : Step) (st : AppState) : AppState :=
  mkApp v (loading st) (fileParsing st) (downloading st) (error st)
    (inputContent st) (targetTitle st) (jobDescription st) (seniority st)
    (context st) (result st).

Definition setLoading (v : bool) (st : AppState) : AppState :=
  mkApp (step st) v (fileParsing st) (downloading st) (error st)
    (inputContent st) (targetTitle st) (jobDescription st) (seniority st)
    (context st) (result st).

Definition setFileParsing (v : bool) (st : AppState) : AppState :=
  mkApp (step st) (loading st) v (downloading st) (error st)
    (inputContent st) (targetTitle st) (jobDescription st) (seniority st)
    (context st) (result st).

Definition setDownloading (v : bool) (st : AppState) : AppState :=
  mkApp (step st) (loading st) (fileParsing st) v (error st)
    (inputContent st) (targetTitle st) (jobDescription st) (seniority st)
    (context st) (result st).

Definition setError (v : option jsstring) (st : AppState) : AppState :=
  mkApp (step st) (loading st) (fileParsing st) (downloading st) v
    (inputContent st) (targetTitle st) (jobDescription st) (seniority st)
    (context st) (result st).

Definition setInputContent (v : jsvalue) (st : AppState) : AppState :=
  mkApp (step st) (loading st) (fileParsing st) (downloading st) (error st)
    v (targetTitle st) (jobDescription st) (seniority st)
    (context st) (result st).

Definition setResult (v : json) (st : AppState) : AppState :=
  mkApp (step st) (loading st) (fileParsing st) (downloading st) (error st)
    (inputContent st) (targetTitle st) (jobDescription st) (seniority st)
    (context st) v.

(** How an (async) handler ends: it returns, or an exception leaves it
    uncaught and its promise rejects. *)
Inductive Completion := Returned | Uncaught.

(** [v.optimizedContent]: a TypeError ([None]) on [null] and [undefined],
    the member of an object, [undefined] on every other value. *)
Definition optimizedContentOf (v : jsvalue) : option jsvalue :=
  match v with
  | Undefined => None
  | Value JNull => None
  | Value (JObject members) =>
      match lookup (lit "optimizedContent") members with
      | Some x => Some (Value x)
      | None => Some Undefined
      end
  | Value _ => Some Undefined
  end.

(** Whether a number lexeme denotes zero: no digit of its significand
    differs from [0]. *)
Fixpoint isZeroLexeme (lexeme : jsstring) : bool :=
  match lexeme with
  | [] => true
  | c :: t =>
      if (c =? 101)%N || (c =? 69)%N then true
      else if (49 <=? c)%N && (c <=? 57)%N then false
      else isZeroLexeme t
  end.

Definition truthy (v : jsvalue) : bool :=
  match v with
  | Undefined => false
  | Value JNull => false
  | Value (JBool b) => b
  | Value (JNumber lexeme) => negb (isZeroLexeme lexeme)
  | Value (JString s) => negb (isEmpty s)
  | Value (JArray _) => true
  | Value (JObject _) => true
  end.

(** [v.trim()]: only a string has the method; on anything else the call
    throws a TypeError ([None]). *)
Definition trimOf (v : jsvalue) : option jsstring :=
  match v with
  | Value (JString s) => Some (trim s)
  | _ => None
  end.

(** ** [handleOptimize] *)

Record ResumeData := mkResumeData {
  content : jsvalue;
  data_targetTitle : jsstring;
  data_jobDescription : option jsstring;
  data_seniority : SeniorityLevel;
  additionalContext : jsstring
}.

Section Handlers.

(** [geminiService.optimizeResume], awaited. *)
Variable optimizeResume : ResumeData -> Settled json.

(** The message of the TypeError raised by reading a property of [null]. *)
Variable nullReadMessage : jsstring.

(** src/App.tsx, lines 87 to 111. *)
Definition handleOptimize (st : AppState) : AppState * Completion :=
  match trimOf (inputContent st) with
  | None => (st, Uncaught)
  | Some trimmedContent =>
      if isEmpty trimmedContent || isEmpty (trim (targetTitle st)) then
        (setError (Some (lit "Resume text and target job title are required.")) st,
         Returned)
      else
        let st := setError None (setLoading true st) in
        let st :=
          match optimizeResume
                  (mkResumeData (inputContent st) (targetTitle st)
                     (Some (jobDescription st)) (seniority st) (context st)) with
          | Resolved optimized =>
              let st := setResult optimized st in
              match optimizedContentOf (Value optimized) with
              | Some c => setStep Step2 (setInputContent c st)
              | None =>
                  setError
                    (Some (orElse nullReadMessage
                             (lit "Optimization failed. Please try again."))) st
              end
          | Rejected message =>
              setError
                (Some (orElse message (lit "Optimization failed. Please try again."))) st
          end in
        (setLoading false st, Returned)
  end.

(** The variant of src/unnamed/part_001, lines 108 to 136: two separate
    checks, no [jobDescription], and the editor is not overwritten. *)
Definition handleOptimize_part001 (st : AppState) : AppState * Completion :=
  match trimOf (inputContent st) with
  | None => (st, Uncaught)
  | Some trimmedContent =>
      if isEmpty trimmedContent then
        (setError (Some (lit "Please provide your current resume content.")) st,
         Returned)
      else if isEmpty (trim (targetTitle st)) then
        (setError (Some (lit "Please specify a target job title.")) st, Returned)
      else
        let st := setError None (setLoading true st) in
        let st :=
          match optimizeResume
                  (mkResumeData (inputContent st) (targetTitle st) None
                     (seniority st) (context st)) with
          | Resolved optimized => setStep Step2 (setResult optimized st)
          | Rejected message =>
              setError
                (Some (orElse message (lit "An unexpected error occurred."))) st
          end in
        (setLoading false st, Returned)
  end.

(** ** [handleFileUpload] *)

(** What an awaited library call gives: a text, or a throw with a message. *)
Inductive Extracted :=
| Text (t : jsstring)
| Throws (message : jsstring).

(** An uploaded file: its [name] and what [file.arrayBuffer()] resolves
    to. *)
Record File := mkFile { name : jsstring; bytes : list N }.

Variable toLowerCase : jsstring -> jsstring.
(** The pdf.js loop over the pages, [mammoth.extractRawText] and
    [new TextDecoder().decode]. *)
Variable extractTextFromPDF : list N -> Extracted.
Variable extractTextFromDOCX : list N -> Extracted.
Variable decode : list N -> jsstring.

(** src/App.tsx, lines 59 to 85. *)
Definition handleFileUpload (file : option File) (st : AppState) : AppState :=
  match file with
  | None => st
  | Some file =>
      let st := setError None st in
      let fileName := toLowerCase (name file) in
      let extracted :=
        if endsWith fileName (lit ".pdf") then extractTextFromPDF (bytes file)
        else if endsWith fileName (lit ".docx") then extractTextFromDOCX (bytes file)
        else Text (decode (bytes file)) in
      match extracted with
      | Text extractedText => setInputContent (str extractedText) st
      | Throws _ =>
          setError
            (Some (lit "Failed to process file. Ensure it is a valid PDF, DOCX, or text file."))
            st
      end
  end.

(** The variant of src/unnamed/part_001, lines 72 to 106. *)
Definition handleFileUpload_part001 (file : option File) (st : AppState)
  : AppState :=
  match file with
  | None => st
  | Some file =>
      let st := setError None (setFileParsing true st) in
      let fileName := toLowerCase (name file) in
      let extracted :=
        if endsWith fileName (lit ".pdf") then extractTextFromPDF (bytes file)
        else if endsWith fileName (lit ".docx") then extractTextFromDOCX (bytes file)
        else if endsWith fileName (lit ".txt") || endsWith fileName (lit ".md")
        then Text (decode (bytes file))
        else Throws (lit "Unsupported file type. Please upload PDF, DOCX, TXT, or MD.") in
      let checked :=
        match extracted with
        | Text extractedText =>
            if isEmpty (trim extractedText)
            then Throws (lit "The file seems to be empty or contains no extractable text.")
            else extracted
        | Throws _ => extracted
        end in
      let st :=
        match checked with
        | Text extractedText => setInputContent (str extractedText) st
        | Throws message =>
            setError
              (Some (orElse message
                       (lit "Failed to process the file. Please try again or copy-paste the text.")))
              st
        end in
      setFileParsing false st
  end.

(** ** [handleDownloadPDF] *)

Variable widthOfTextAtSize : Pdf.Font -> jsstring -> Q -> Q.

(** Whether the awaited pdf-lib calls ([PDFDocument.create], [embedFont],
    [save]) and the layout pass go through without a throw. *)
Variable pdfLibSucceeds : bool.

(** How far the export got: it returned before [PDFDocument.create()], it
    saved and handed over the document, or a throw inside [try] was
    caught. *)
Inductive Export :=
| NotStarted
| Saved (document : list Pdf.Page)
| ExportFailed.

(** [step === 1 ? inputContent : (result?.optimizedContent || inputContent)] *)
Definition contentToExport (st : AppState) : jsvalue :=
  match step st with
  | Step1 => inputContent st
  | Step2 =>
      let c :=
        match optimizedContentOf (Value (result st)) with
        | Some c => c
        | None => Undefined
        end in
      if truthy c then c else inputContent st
  end.

(** src/App.tsx, lines 124 to 279. [contentToExport.trim()] is a TypeError
    outside the [try] unless the value is a string. *)
Definition handleDownloadPDF (st : AppState) : AppState * Export * Completion :=
  match contentToExport st with
  | Value (JString text) =>
      if isEmpty (trim text) then (st, NotStarted, Returned)
      else
        let st := setDownloading true st in
        if pdfLibSucceeds then
          (setDownloading false st,
           Saved (Pdf.pages (Pdf.layoutPass widthOfTextAtSize text)),
           Returned)
        else
          (setDownloading false
             (setError (Some (lit "PDF Export failed. Check console for details.")) st),
           ExportFailed, Returned)
  | _ => (st, NotStarted, Uncaught)
  end.

End Handlers.

End App.

(* ================================================================== *)
(** * Vocabulary of the statements *)

Module Props.
Import JS Pdf.
Local Open Scope Q_scope.

(** The wrap loop run over a flat list of measured tokens. *)
Definition wrapTokens (maxWidth : Q) (tokens : list Seg) : list (list Seg) * Q :=
  fold_left (wrapWord maxWidth) tokens ([[]], 0).

(** The measured tokens [drawRichText] feeds to its wrap loop. *)
Definition richTokens (W : Font -> jsstring -> Q -> Q) (size : Q)
  (defaultFont : Font) (text : jsstring) : list Seg :=
  flat_map (segmentTokens W defaultFont size) (boldSegments text).

(** Every non-blank token of a wrapped line ends a prefix of the line that
    fits in [maxWidth], unless the token opens the line and is itself wider
    than [maxWidth]. *)
Definition fitsOrAlone (maxWidth : Q) (line : list Seg) : Prop :=
  forall pre t post,
    line = pre ++ t :: post ->
    nonBlank (seg_text t) = true ->
    fullLineWidth (pre ++ [t]) <= maxWidth
    \/ (pre = [] /\ maxWidth < seg_width t).

(** The reading of the claim on wrapped lines: the whole line fits, or the
    line is one non-blank token wider than [maxWidth]. *)
Definition fitsWhole (maxWidth : Q) (line : list Seg) : Prop :=
  fullLineWidth line <= maxWidth
  \/ (exists t, line = [t] /\ nonBlank (seg_text t) = true
                /\ maxWidth < seg_width t).

Definition blankToken (t : Seg) : Prop := nonBlank (seg_text t) = false.

(** The wrapped lines of a bullet, as the wrap loop over its tokens. *)
Definition bulletLines (W : Font -> jsstring -> Q -> Q) (line : jsstring)
  : list (list Seg) :=
  fst (wrapTokens bulletMaxWidth
         (richTokens W bulletSize Helvetica (substring 2 line))).

Definition lineWord (t : Seg) : jsstring * Font :=
  (seg_text t, if seg_isBold t then HelveticaBold else Helvetica).

(** A continuation line of a bullet: drawn, cursor lowered by one line,
    then the page check. *)
Definition flushBulletLine (W : Font -> jsstring -> Q -> Q) (st : Layout)
  (l : list Seg) : Layout :=
  breakIfLow (moveDown (bulletSize * 1.5) (drawLineWords W (map lineWord l) st)).

(** The placement of the wrapped lines of a bullet: every line but the
    last is flushed inside the loop, the last one after it. *)
Definition placeBulletLines (W : Font -> jsstring -> Q -> Q)
  (lines : list (list Seg)) (st : Layout) : Layout :=
  moveDown (bulletSize * 1.7)
    (drawLineWords W (map lineWord (last lines []))
       (fold_left (flushBulletLine W) (removelast lines) st)).

(** A sample metric for concrete runs: every code unit is 0.6 em wide, as
    in a fixed-pitch face. *)
Definition fixedPitch (font : Font) (text : jsstring) (size : Q) : Q :=
  inject_Z (Z.of_nat (List.length text)) * size * 0.6.

(** The advance widths, in thousandths of the font size, that the metrics
    of the two embedded standard fonts give the glyphs of the sample
    texts: the space and the letter a are 278 and 556 in both fonts, the
    letter b is 556 in Helvetica and 611 in Helvetica-Bold. *)
Definition helveticaAdvance (font : Font) (c : char) : Q :=
  if (c =? 32)%N then 278
  else if (c =? 97)%N then 556
  else if (c =? 98)%N then
    match font with Helvetica => 556 | HelveticaBold => 611 end
  else 0.

(** [widthOfTextAtSize] of the two standard fonts on texts made of spaces
    and of the letters a and b: the sum of the advance widths, scaled by
    [size / 1000]. A kerning pair would add its amount; the sample texts
    measured with this metric are runs of the letter a, a single b and a
    single space, none of which holds a pair. *)
Definition helveticaWidth (font : Font) (text : jsstring) (size : Q) : Q :=
  fold_left (fun total c => total + helveticaAdvance font c) text 0
  * (size / 1000).

Definition opText (op : Op) : jsstring :=
  match op with
  | DrawText text _ _ _ _ _ => text
  | DrawLine _ _ _ _ _ _ => []
  end.

Definition opY (op : Op) : Q :=
  match op with
  | DrawText _ _ y _ _ _ => y
  | DrawLine _ y _ _ _ _ => y
  end.

(** The text runs [drawRichText] leaves for one wrapped line placed at
    height [y] from [cursorX] on. *)
Fixpoint richLineOps (size : Q) (defaultFont : Font) (color : Color) (y : Q)
  (cursorX : Q) (line : list Seg) : list Op :=
  match line with
  | [] => []
  | seg :: rest =>
      DrawText (seg_text seg) cursorX y size
        (if seg_isBold seg then HelveticaBold else defaultFont) (Some color)
      :: richLineOps size defaultFont color y (cursorX + seg_width seg) rest
  end.

Definition startX (align : Align) (line : list Seg) : Q :=
  match align with
  | AlignCenter => (width - fullLineWidth line) / 2
  | AlignLeft => margin
  end.

(** A text run placed under the bottom margin. *)
Definition belowMargin (op : Op) : bool :=
  match op with
  | DrawText _ _ y _ _ _ => Qltb y margin
  | DrawLine _ _ _ _ _ _ => false
  end.

(** No text run lies in the 20 points above the bottom margin or under
    it. *)
Definition runClear (op : Op) : Prop :=
  match op with
  | DrawText _ _ y _ _ _ => (margin + 20 <= y)%Q
  | DrawLine _ _ _ _ _ _ => True
  end.

Definition runsClear (st : Layout) : Prop :=
  Forall (Forall runClear) (pages st).

(** [st'] comes from [st] by drawing on the current page and adding
    pages after it: nothing already drawn is moved or lost. *)
Definition extends (st st' : Layout) : Prop :=
  exists ops rest, pages st' = earlier st ++ (page st ++ ops) :: rest.

(** ** The inline spans *)

(** The spans [drawRichText] and the bullet branch work with: the text of
    each segment and its bold flag. *)
Definition spanOf (seg : jsstring) : jsstring * bool :=
  (cleanText seg, isBoldSegment seg).

Definition spans (text : jsstring) : list (jsstring * bool) :=
  map spanOf (boldSegments text).

(** A text in which the regex [.] accepts every code unit. *)
Definition noTerminator (s : jsstring) : Prop :=
  Forall (fun c => isLineTerminator c = false) s.

(** The text up to the next [**] marker and the text after that marker. *)
Fixpoint untilMarker (s : jsstring) : option (jsstring * jsstring) :=
  match s with
  | c1 :: ((c2 :: r) as t) =>
      if (c1 =? STAR)%N && (c2 =? STAR)%N then Some ([], r)
      else match untilMarker t with
           | Some (body, rest) => Some (c1 :: body, rest)
           | None => None
           end
  | _ => None
  end.

Definition regularSpan (acc : jsstring) : list (jsstring * bool) :=
  if isEmpty acc then [] else [(acc, false)].

(** The span splitter in the words of the specification: a [**] marker
    with a later closing marker delimits a bold span, emitted without its
    markers; the text outside such spans is regular; a marker without a
    closing marker stays in the regular text. *)
Fixpoint specSpans_go (fuel : nat) (acc s : jsstring) : list (jsstring * bool) :=
  match fuel with
  | O => regularSpan (acc ++ s)
  | S fuel' =>
      match s with
      | [] => regularSpan acc
      | c :: t =>
          match (if startsWith s [STAR; STAR] then untilMarker (skipn 2 s) else None) with
          | Some (body, rest) =>
              regularSpan acc ++ (body, true) :: specSpans_go fuel' [] rest
          | None => specSpans_go fuel' (acc ++ [c]) t
          end
      end
  end.

Definition specSpans (text : jsstring) : list (jsstring * bool) :=
  specSpans_go (S (List.length text)) [] text.

(** ** Invariants of the loops *)

(** What the wrap loop keeps true of [lines] and [currentLineWidth]. *)
Definition wrapInv (maxWidth : Q) (st : list (list Seg) * Q) : Prop :=
  exists init l,
    fst st = init ++ [l] /\ snd st = fullLineWidth l
    /\ Forall (fitsOrAlone maxWidth) (fst st).

(** A wrapped line opened by a non-blank token. *)
Definition opensWithWord (line : list Seg) : Prop :=
  exists t rest, line = t :: rest /\ nonBlank (seg_text t) = true.

(** The first two wrapped lines are [pre] and a line opened by [t]. *)
Definition headed (pre : list Seg) (t : Seg) (lines : list (list Seg)) : Prop :=
  exists l rest, lines = pre :: (t :: l) :: rest.

(** The state of the bullet loop that stands for a state of the wrap loop:
    all lines but the last are already flushed. *)
Definition bulletState (W : Font -> jsstring -> Q -> Q) (st0 : Layout)
  (ws : list (list Seg) * Q) : Layout * list (jsstring * Font) * Q :=
  (fold_left (flushBulletLine W) (removelast (fst ws)) st0,
   map lineWord (last (fst ws) []),
   snd ws).

End Props.

(** Stand-ins for the browser functions, for concrete runs of the
    handlers. *)
Module Samples.
Import JS Json Gemini App.

(** [toLowerCase] on the letters A to Z; other code units are kept. *)
Definition asciiLower (s : jsstring) : jsstring :=
  map (fun c => if (65 <=? c)%N && (c <=? 90)%N then (c + 32)%N else c) s.

(** [TextDecoder.decode] on bytes below 128: each byte is one code unit. *)
Definition decodeAscii (bytes : list N) : jsstring := bytes.

(** Extraction libraries that refuse every input. *)
Definition noExtraction (bytes : list N) : Extracted :=
  Throws (lit "Invalid file structure").

Definition engineSyntaxError (text : jsstring) : jsstring :=
  lit "Unexpected token".

Definition engineNullRead : jsstring :=
  lit "Cannot read properties of null (reading 'optimizedContent')".

(** An editor state ready for a request. *)
Definition filledForm : AppState :=
  mkApp Step1 false false false None (str (lit "# Jane Doe"))
    (lit "Engineer") [] MID [] JNull.

End Samples.

(** Vocabulary of the statements on the service and the handlers. *)
Module Requests.
Import JS Json Gemini App.

(** The text [optimizeResume] of geminiService.ts hands to [JSON.parse]. *)
Definition parsedText (text : option jsstring) : jsstring :=
  match text with
  | Some t => orElse t (lit "{}")
  | None => lit "{}"
  end.

(** The request [handleOptimize] of src/App.tsx sends. *)
Definition requestOf (st : AppState) : ResumeData :=
  mkResumeData (inputContent st) (targetTitle st) (Some (jobDescription st))
    (seniority st) (context st).

(** The request [handleOptimize] of src/unnamed/part_001 sends: it has no
    job description. *)
Definition requestOf_part001 (st : AppState) : ResumeData :=
  mkResumeData (inputContent st) (targetTitle st) None (seniority st)
    (context st).

End Requests.

(* ================================================================== *)
(** * More of the component: view toggle, reset, PDF text extraction *)

Module Views.
Import JS Json Gemini App.

(** The decimal name of an array index, as a property key. *)
Definition indexKey (n : nat) : jsstring :=
  lit (NilEmpty.string_of_uint (Nat.to_uint n)).

Definition indexed (items : list json) : list (jsstring * json) :=
  combine (map indexKey (seq 0 (List.length items))) items.

(** The own enumerable properties [{ ...v }] copies: the members of an
    object, the elements of an array and the code units of a string under
    their indices, nothing for a number or a boolean. *)
Definition spreadMembers (v : json) : list (jsstring * json) :=
  match v with
  | JObject members => members
  | JArray items => indexed items
  | JString s => indexed (map (fun c => JString [c]) s)
  | _ => []
  end.

(** [{ ...members, key: v }]. The order of the members is not observable
    by the code, which only reads members by name; a member set to
    [undefined] reads like a missing one and is not kept. *)
Definition withMember (key : jsstring) (v : jsvalue)
  (members : list (jsstring * json)) : list (jsstring * json) :=
  let others := filter (fun kv => negb (eqb (fst kv) key)) members in
  match v with
  | Value x => others ++ [(key, x)]
  | Undefined => others
  end.

(** src/App.tsx, lines 113 to 122. *)
Definition toggleView (st : AppState) : AppState :=
  match step st with
  | Step2 => setStep Step1 st
  | Step1 =>
      if truthy (Value (result st)) then
        setStep Step2
          (setResult
             (JObject
                (withMember (lit "optimizedContent") (inputContent st)
                   (spreadMembers (result st))))
             st)
      else st
  end.

(** src/unnamed/part_001, lines 138 to 142. *)
Definition handleReset (st : AppState) : AppState :=
  setError None (setResult JNull (setStep Step1 st)).

(** [items.join(sep)] *)
Fixpoint join (sep : jsstring) (items : list jsstring) : jsstring :=
  match items with
  | [] => []
  | [x] => x
  | x :: rest => x ++ sep ++ join sep rest
  end.

(** The loop of [extractTextFromPDF] (src/unnamed/part_001, lines 50 to
    65; inlined in src/App.tsx, lines 68 to 74) over the text items pdf.js
    gives for each page: the [str] of the items of a page joined by a
    space, then a line feed. *)
Definition extractTextFromPDF (pageItems : list (list jsstring)) : jsstring :=
  fold_left (fun fullText items => fullText ++ (join [SPACE] items ++ [LF]))
    pageItems [].

End Views.

(** Vocabulary of the further statements on the layout pass. *)
Module Measures.
Import JS Pdf Props.
Local Open Scope Q_scope.

(** Everything drawn so far, page after page, and its text. *)
Definition allOps (st : Layout) : list Op := concat (pages st).

Definition allText (st : Layout) : jsstring := concat (map opText (allOps st)).

Definition opX (op : Op) : Q :=
  match op with
  | DrawText _ x _ _ _ _ => x
  | DrawLine x _ _ _ _ _ => x
  end.

(** The line [next] was opened because its first token did not fit at the
    end of the line [full]. *)
Definition brokeForWord (maxWidth : Q) (full next : list Seg) : Prop :=
  exists t rest,
    next = t :: rest /\ nonBlank (seg_text t) = true
    /\ maxWidth < fullLineWidth full + seg_width t.

Fixpoint greedy (maxWidth : Q) (lines : list (list Seg)) : Prop :=
  match lines with
  | full :: ((next :: _) as rest) =>
      brokeForWord maxWidth full next /\ greedy maxWidth rest
  | _ => True
  end.



(** Nothing is drawn above the top margin. *)
Definition belowTop (op : Op) : Prop :=
  match op with
  | DrawText _ _ y _ _ _ => y <= height - margin
  | DrawLine _ y1 _ y2 _ _ => y1 <= height - margin /\ y2 <= height - margin
  end.

(** Every run on every page satisfies [P]. *)
Definition pagesAll (P : Op -> Prop) (st : Layout) : Prop :=
  Forall (Forall P) (pages st).

(** The cursor and everything drawn are at or under the top margin. *)
Definition underTop (st : Layout) : Prop :=
  currentY st <= height - margin /\ pagesAll belowTop st.

(** A line the loop sends to the bullet branch. *)
Definition isBulletLine (raw : jsstring) : bool :=
  let line := trim raw in
  negb (isEmpty line)
  && negb (startsWith line titleMark)
  && negb (startsWith line sectionMark)
  && negb (startsWith line subsectionMark)
  && (startsWith line (lit "- ") || startsWith line (lit "* ")).

End Measures.

(* ================================================================== *)
(** * Properties of the wrap loop *)

Import JS Pdf Props.

Section Wrap.
Local Open Scope Q_scope.

Lemma Qltb_lt (x y : Q) : Qltb x y = true <-> x < y.
Proof. unfold Qltb, Qlt. apply Z.ltb_lt. Qed.

Lemma Qltb_ge (x y : Q) : Qltb x y = false <-> y <= x.
Proof. unfold Qltb, Qle. apply Z.ltb_ge. Qed.

Lemma pushToLast_snoc {A : Type} (init : list (list A)) (l : list A) (x : A) :
  pushToLast (init ++ [l]) x = init ++ [l ++ [x]].
Proof.
  induction init as [|a init IH]; simpl; [reflexivity|].
  rewrite IH. destruct init; reflexivity.
Qed.

Lemma fullLineWidth_snoc (l : list Seg) (t : Seg) :
  fullLineWidth (l ++ [t]) = fullLineWidth l + seg_width t.
Proof. unfold fullLineWidth. rewrite fold_left_app. reflexivity. Qed.

(** One step of the loop on a state whose last line is [l]. *)
Lemma wrapWord_snoc (maxWidth : Q) init l cur tok :
  wrapWord maxWidth (init ++ [l], cur) tok =
  if Qltb maxWidth (cur + seg_width tok) && nonBlank (seg_text tok)
  then ((init ++ [l]) ++ [[tok]], 0 + seg_width tok)
  else (init ++ [l ++ [tok]], cur + seg_width tok).
Proof.
  unfold wrapWord.
  destruct (Qltb maxWidth (cur + seg_width tok) && nonBlank (seg_text tok)).
  - rewrite (pushToLast_snoc (init ++ [l]) [] tok). reflexivity.
  - rewrite pushToLast_snoc. reflexivity.
Qed.

Lemma snoc_split {A : Type} (l pre post : list A) (x t : A) :
  l ++ [x] = pre ++ t :: post ->
  (post = [] /\ pre = l /\ t = x)
  \/ (exists post', post = post' ++ [x] /\ l = pre ++ t :: post').
Proof.
  intros H. induction post as [|y post' _] using rev_ind.
  - left. apply app_inj_tail in H. destruct H; auto.
  - right. exists post'. rewrite app_comm_cons, app_assoc in H.
    apply app_inj_tail in H. destruct H as [-> ->]. auto.
Qed.

Lemma fitsOrAlone_nil (maxWidth : Q) : fitsOrAlone maxWidth [].
Proof. intros pre t post H. destruct pre; discriminate. Qed.

Lemma fitsOrAlone_single (maxWidth : Q) (tok : Seg) :
  fitsOrAlone maxWidth [tok].
Proof.
  intros pre t post H _.
  destruct pre as [|p pre].
  - injection H as <- <-.
    destruct (Qlt_le_dec maxWidth (seg_width tok)) as [Hw|Hw].
    + right. auto.
    + left. unfold fullLineWidth. simpl. lra.
  - destruct pre; discriminate.
Qed.

Lemma fitsOrAlone_snoc (maxWidth : Q) (l : list Seg) (tok : Seg) :
  fitsOrAlone maxWidth l ->
  (nonBlank (seg_text tok) = true ->
   fullLineWidth l + seg_width tok <= maxWidth) ->
  fitsOrAlone maxWidth (l ++ [tok]).
Proof.
  intros Hfl Htok pre t post E Ht.
  apply snoc_split in E. destruct E as [(-> & -> & ->) | (post' & -> & ->)].
  - left. rewrite fullLineWidth_snoc. apply Htok, Ht.
  - apply (Hfl pre t post' eq_refl Ht).
Qed.

Lemma wrapWord_inv (maxWidth : Q) st tok :
  wrapInv maxWidth st -> wrapInv maxWidth (wrapWord maxWidth st tok).
Proof.
  destruct st as [lines cur]. intros (init & l & Hl & Hc & Hall).
  simpl in Hl, Hc, Hall. subst lines cur.
  rewrite wrapWord_snoc.
  apply Forall_app in Hall. destruct Hall as [Hi Hlast].
  inversion Hlast as [|? ? Hfl _]; subst.
  destruct (Qltb maxWidth (fullLineWidth l + seg_width tok)
            && nonBlank (seg_text tok)) eqn:Hbreak.
  - exists (init ++ [l]), [tok]. simpl. repeat split.
    apply Forall_app. split; [apply Forall_app; auto|].
    constructor; [apply fitsOrAlone_single | constructor].
  - exists init, (l ++ [tok]). simpl. repeat split.
    + symmetry. apply fullLineWidth_snoc.
    + apply Forall_app. split; [assumption|].
      constructor; [|constructor].
      apply fitsOrAlone_snoc; [assumption|].
      intros Hnb. rewrite Hnb, andb_true_r in Hbreak.
      apply Qltb_ge, Hbreak.
Qed.

Lemma fold_wrapWord_inv (maxWidth : Q) tokens st :
  wrapInv maxWidth st ->
  wrapInv maxWidth (fold_left (wrapWord maxWidth) tokens st).
Proof.
  revert st. induction tokens as [|tok tokens IH]; intros st H; simpl.
  - assumption.
  - apply IH, wrapWord_inv, H.
Qed.

Lemma wrapInv_start (maxWidth : Q) : wrapInv maxWidth ([[]], 0).
Proof.
  exists [], []. repeat split.
  constructor; [apply fitsOrAlone_nil | constructor].
Qed.

Lemma wrapTokens_fits (maxWidth : Q) tokens :
  Forall (fitsOrAlone maxWidth) (fst (wrapTokens maxWidth tokens)).
Proof.
  destruct (fold_wrapWord_inv maxWidth tokens _ (wrapInv_start maxWidth))
    as (init & l & _ & _ & H).
  exact H.
Qed.

(** The loop neither drops, splits nor reorders a token. *)
Lemma wrapWord_concat (maxWidth : Q) init l cur tok :
  concat (fst (wrapWord maxWidth (init ++ [l], cur) tok))
  = concat (init ++ [l]) ++ [tok].
Proof.
  rewrite wrapWord_snoc.
  destruct (Qltb maxWidth (cur + seg_width tok) && nonBlank (seg_text tok)); simpl.
  - rewrite concat_app. simpl. reflexivity.
  - rewrite !concat_app. simpl. rewrite !app_nil_r, app_assoc. reflexivity.
Qed.

Lemma fold_wrapWord_concat (maxWidth : Q) tokens st :
  wrapInv maxWidth st ->
  concat (fst (fold_left (wrapWord maxWidth) tokens st))
  = concat (fst st) ++ tokens.
Proof.
  revert st. induction tokens as [|tok tokens IH]; intros st H; simpl.
  - rewrite app_nil_r. reflexivity.
  - rewrite (IH _ (wrapWord_inv _ _ tok H)).
    destruct st as [lines cur]. destruct H as (init & l & Hl & _).
    simpl in Hl. subst lines. rewrite wrapWord_concat. simpl.
    rewrite <- app_assoc. reflexivity.
Qed.

Lemma wrapTokens_concat (maxWidth : Q) tokens :
  concat (fst (wrapTokens maxWidth tokens)) = tokens.
Proof.
  unfold wrapTokens.
  rewrite (fold_wrapWord_concat _ _ _ (wrapInv_start maxWidth)). reflexivity.
Qed.

Lemma fold_left_flat_map {A B C : Type} (f : A -> B -> A) (g : C -> list B)
  (l : list C) (a : A) :
  fold_left f (flat_map g l) a = fold_left (fun a x => fold_left f (g x) a) l a.
Proof.
  revert a. induction l as [|x l IH]; intros a; simpl; [reflexivity|].
  rewrite fold_left_app. apply IH.
Qed.

(** The nested loops of [drawRichText] are the wrap loop over the tokens of
    all segments in order. *)
Lemma wrapSegments_tokens (W : Font -> jsstring -> Q -> Q) maxWidth size
  defaultFont text :
  wrapSegments W maxWidth size defaultFont (boldSegments text)
  = wrapTokens maxWidth (richTokens W size defaultFont text).
Proof.
  unfold wrapSegments, wrapTokens, richTokens.
  rewrite fold_left_flat_map. reflexivity.
Qed.

End Wrap.

Section WrapBreaks.
Local Open Scope Q_scope.

Lemma tl_snoc {A : Type} (init : list A) (l x : A) :
  tl ((init ++ [l]) ++ [x]) = tl (init ++ [l]) ++ [x].
Proof. destruct init; reflexivity. Qed.

(** Only a non-blank token opens a new line: every wrapped line after the
    first begins with one. *)
Lemma wrapWord_breaks_at_words (maxWidth : Q) init l cur tok :
  Forall opensWithWord (tl (init ++ [l])) ->
  Forall opensWithWord
    (tl (fst (wrapWord maxWidth (init ++ [l], cur) tok))).
Proof.
  intros H. rewrite wrapWord_snoc.
  destruct (Qltb maxWidth (cur + seg_width tok) && nonBlank (seg_text tok))
    eqn:Hbreak; cbn [fst].
  - apply andb_true_iff in Hbreak. destruct Hbreak as [_ Hnb].
    rewrite tl_snoc. apply Forall_app. split; [assumption|].
    constructor; [|constructor]. exists tok, []. auto.
  - destruct init as [|a init]; [constructor|].
    simpl in *. apply Forall_app in H. destruct H as [Hi Hl].
    apply Forall_app. split; [assumption|].
    inversion Hl as [|? ? (t & r & -> & Ht) _]; subst.
    constructor; [|constructor]. exists t, (r ++ [tok]). auto.
Qed.

Lemma fold_wrapWord_breaks_at_words (maxWidth : Q) tokens st :
  wrapInv maxWidth st ->
  Forall opensWithWord (tl (fst st)) ->
  Forall opensWithWord (tl (fst (fold_left (wrapWord maxWidth) tokens st))).
Proof.
  revert st. induction tokens as [|tok tokens IH]; intros st Hinv H;
    cbn [fold_left]; [assumption|].
  apply IH; [apply wrapWord_inv, Hinv|].
  destruct st as [lines cur]. destruct Hinv as (init & l & Hl & _).
  simpl in Hl. subst lines. apply wrapWord_breaks_at_words, H.
Qed.

Lemma wrapTokens_breaks_at_words (maxWidth : Q) tokens :
  Forall opensWithWord (tl (fst (wrapTokens maxWidth tokens))).
Proof.
  apply fold_wrapWord_breaks_at_words; [apply wrapInv_start | constructor].
Qed.

End WrapBreaks.

(** ** The split on bold markers loses no text *)

Section BoldSplit.

Lemma closeBold_app (s body rest : jsstring) :
  closeBold s = Some (body, rest) -> s = body ++ [STAR; STAR] ++ rest.
Proof.
  revert body rest.
  induction s as [|c1 s IH]; intros body rest; simpl; [discriminate|].
  destruct s as [|c2 r]; [discriminate|].
  destruct ((c1 =? STAR)%N && (c2 =? STAR)%N) eqn:E.
  - intros H. injection H as <- <-.
    apply andb_true_iff in E. destruct E as [E1 E2].
    apply N.eqb_eq in E1, E2. subst. reflexivity.
  - destruct (isLineTerminator c1); [discriminate|].
    destruct (closeBold (c2 :: r)) as [[b r']|] eqn:Ec; [|discriminate].
    intros H. injection H as <- <-.
    rewrite (IH b r' eq_refl). reflexivity.
Qed.

Lemma matchBold_app (s m rest : jsstring) :
  matchBold s = Some (m, rest) -> s = m ++ rest.
Proof.
  unfold matchBold. destruct s as [|c1 [|c2 t]]; try discriminate.
  destruct ((c1 =? STAR)%N && (c2 =? STAR)%N) eqn:E; [|discriminate].
  destruct (closeBold t) as [[body r]|] eqn:Ec; [|discriminate].
  intros H. injection H as <- <-.
  apply andb_true_iff in E. destruct E as [E1 E2].
  apply N.eqb_eq in E1, E2. subst.
  rewrite (closeBold_app t body r Ec). simpl. rewrite <- app_assoc. reflexivity.
Qed.

Lemma splitBold_go_concat (fuel : nat) (acc s : jsstring) :
  concat (splitBold_go fuel acc s) = acc ++ s.
Proof.
  revert acc s. induction fuel as [|fuel IH]; intros acc s; simpl.
  - rewrite app_nil_r. reflexivity.
  - destruct s as [|c t]; [simpl; reflexivity|].
    destruct (matchBold (c :: t)) as [[m rest]|] eqn:E.
    + simpl. rewrite IH. simpl. rewrite (matchBold_app _ _ _ E). reflexivity.
    + rewrite IH, <- app_assoc. reflexivity.
Qed.

Lemma matchBold_shorter (s m rest : jsstring) :
  matchBold s = Some (m, rest) -> List.length rest < List.length s.
Proof.
  intros H. pose proof (matchBold_app s m rest H) as E.
  unfold matchBold in H. destruct s as [|c1 [|c2 t]]; try discriminate.
  destruct ((c1 =? STAR)%N && (c2 =? STAR)%N); [|discriminate].
  destruct (closeBold t) as [[body r]|]; [|discriminate].
  injection H as <- <-. rewrite E. simpl. rewrite !length_app. simpl. lia.
Qed.

(** The fuel of [splitBold] is never used up: any two amounts above the
    length of the text give the same segments. *)
Lemma splitBold_go_fuel (fuel fuel' : nat) (acc s : jsstring) :
  List.length s < fuel -> List.length s < fuel' ->
  splitBold_go fuel acc s = splitBold_go fuel' acc s.
Proof.
  revert fuel' acc s.
  induction fuel as [|fuel IH]; intros fuel' acc s H H'; [inversion H|].
  destruct fuel' as [|fuel']; [inversion H'|].
  destruct s as [|c t]; [reflexivity|].
  cbn [splitBold_go].
  destruct (matchBold (c :: t)) as [[m rest]|] eqn:E.
  - pose proof (matchBold_shorter _ _ _ E) as Hs.
    rewrite (IH fuel' [] rest) by lia. reflexivity.
  - simpl in H, H'. apply IH; lia.
Qed.

Lemma concat_filter_nonempty (l : list jsstring) :
  concat (filter (fun s => negb (isEmpty s)) l) = concat l.
Proof.
  induction l as [|s l IH]; simpl; [reflexivity|].
  destruct s; simpl; [exact IH | rewrite IH; reflexivity].
Qed.

(** A segment the regex matched is taken for bold, and the text emitted
    for it is the text between its markers. *)
Lemma matched_segment_is_bold (body : jsstring) :
  let seg := STAR :: STAR :: body ++ [STAR; STAR] in
  isBoldSegment seg = true /\ cleanText seg = body.
Proof.
  cbv zeta.
  assert (Hb : isBoldSegment (STAR :: STAR :: body ++ [STAR; STAR]) = true).
  { unfold isBoldSegment, endsWith. simpl rev. rewrite rev_app_distr.
    reflexivity. }
  split; [exact Hb|].
  unfold cleanText. rewrite Hb. unfold slice_2_m2.
  simpl List.length. rewrite length_app. simpl List.length.
  replace (S (S (List.length body + 2)) - 2 - Nat.min 2 (S (S (List.length body + 2))))
    with (List.length body) by (simpl; lia).
  simpl skipn. rewrite firstn_app, firstn_all, Nat.sub_diag. simpl.
  apply app_nil_r.
Qed.

(** The segments, markers included, put end to end give the text back. *)
Lemma boldSegments_concat (text : jsstring) :
  concat (boldSegments text) = text.
Proof.
  unfold boldSegments, splitBold.
  rewrite concat_filter_nonempty, splitBold_go_concat. reflexivity.
Qed.

End BoldSplit.

(** ** Where the span splitter agrees with the specification *)

Section Spans.

Lemma closeBold_untilMarker (s : jsstring) :
  noTerminator s -> closeBold s = untilMarker s.
Proof.
  induction s as [|c1 s IH]; intros H; [reflexivity|].
  destruct s as [|c2 r]; [reflexivity|].
  inversion H as [|? ? Hc Hs]; subst.
  change (closeBold (c1 :: c2 :: r))
    with (if (c1 =? STAR)%N && (c2 =? STAR)%N then Some ([], r)
          else if isLineTerminator c1 then None
          else match closeBold (c2 :: r) with
               | Some (body, rest) => Some (c1 :: body, rest)
               | None => None
               end).
  change (untilMarker (c1 :: c2 :: r))
    with (if (c1 =? STAR)%N && (c2 =? STAR)%N then Some ([], r)
          else match untilMarker (c2 :: r) with
               | Some (body, rest) => Some (c1 :: body, rest)
               | None => None
               end).
  rewrite Hc, (IH Hs). reflexivity.
Qed.

(** A closing marker ahead is found. *)
Lemma closeBold_finds (a r : jsstring) :
  noTerminator a -> closeBold (a ++ STAR :: STAR :: r) <> None.
Proof.
  induction a as [|c1 a IH]; intros H.
  - simpl. discriminate.
  - inversion H as [|? ? Hc Ha]; subst.
    change ((c1 :: a) ++ STAR :: STAR :: r)
      with (c1 :: (a ++ STAR :: STAR :: r)).
    specialize (IH Ha).
    destruct (a ++ STAR :: STAR :: r) as [|c2 t] eqn:E.
    + destruct a; discriminate.
    + change (closeBold (c1 :: c2 :: t))
        with (if (c1 =? STAR)%N && (c2 =? STAR)%N then Some ([], t)
              else if isLineTerminator c1 then None
              else match closeBold (c2 :: t) with
                   | Some (body, rest) => Some (c1 :: body, rest)
                   | None => None
                   end).
      destruct ((c1 =? STAR)%N && (c2 =? STAR)%N); [discriminate|].
      rewrite Hc.
      destruct (closeBold (c2 :: t)) as [[b r']|]; [discriminate|].
      contradiction.
Qed.

Lemma startsWith_stars (s : jsstring) :
  startsWith s [STAR; STAR] = true -> exists t, s = STAR :: STAR :: t.
Proof.
  destruct s as [|c1 [|c2 t]]; cbn [startsWith]; try discriminate.
  - rewrite andb_false_r. discriminate.
  - intros H. apply andb_true_iff in H. destruct H as [H1 H2].
    rewrite andb_true_r in H2. apply N.eqb_eq in H1, H2. subst.
    exists t. reflexivity.
Qed.

Lemma noTerminator_app (a b : jsstring) :
  noTerminator (a ++ b) <-> noTerminator a /\ noTerminator b.
Proof. apply Forall_app. Qed.

(** An unmatched segment that is followed by a match is not taken for a
    bold one. *)
Lemma unmatched_before_match_regular (acc body rest : jsstring) :
  noTerminator acc ->
  matchBold (acc ++ STAR :: STAR :: body ++ STAR :: STAR :: rest) = None ->
  isBoldSegment acc = false.
Proof.
  intros Hn Hm. unfold isBoldSegment.
  destruct (startsWith acc [STAR; STAR]) eqn:E; [|reflexivity].
  exfalso. apply startsWith_stars in E. destruct E as (t & ->).
  inversion Hn as [|? ? _ Hn1]; subst. inversion Hn1 as [|? ? _ Hn2]; subst.
  pose proof (closeBold_finds t (body ++ STAR :: STAR :: rest) Hn2) as Hf.
  unfold matchBold in Hm. cbn [app] in Hm.
  rewrite N.eqb_refl in Hm. cbn [andb] in Hm.
  destruct (closeBold (t ++ STAR :: STAR :: body ++ STAR :: STAR :: rest))
    as [[b r]|]; [discriminate | contradiction].
Qed.

(** An unmatched segment at the end of the text is taken for a bold one
    only when it is made of two or three asterisks. *)
Lemma unmatched_at_end_regular (acc : jsstring) :
  noTerminator acc ->
  matchBold acc = None ->
  acc <> [STAR; STAR] -> acc <> [STAR; STAR; STAR] ->
  isBoldSegment acc = false.
Proof.
  intros Hn Hm H2 H3. unfold isBoldSegment.
  destruct (startsWith acc [STAR; STAR]) eqn:E; [|reflexivity].
  apply startsWith_stars in E. destruct E as (t & ->).
  simpl. destruct (endsWith (STAR :: STAR :: t) [STAR; STAR]) eqn:Ee;
    [|reflexivity].
  exfalso. unfold endsWith in Ee. apply startsWith_stars in Ee.
  destruct Ee as (u & Eu). simpl in Eu.
  assert (Et : STAR :: STAR :: t = rev u ++ [STAR; STAR]).
  { rewrite <- (rev_involutive (STAR :: STAR :: t)). simpl rev at 2.
    rewrite Eu. simpl. rewrite <- app_assoc. reflexivity. }
  destruct (rev u) as [|x1 [|x2 v]] eqn:Ev.
  - simpl in Et. injection Et; intros; subst. apply H2. reflexivity.
  - simpl in Et. injection Et; intros; subst. apply H3. reflexivity.
  - simpl in Et. injection Et; intros; subst.
    inversion Hn as [|? ? _ Hn1]; subst. inversion Hn1 as [|? ? _ Hn2]; subst.
    apply noTerminator_app in Hn2. destruct Hn2 as [Hv _].
    pose proof (closeBold_finds v [] Hv) as Hf.
    unfold matchBold in Hm. rewrite N.eqb_refl in Hm. cbn [andb] in Hm.
    destruct (closeBold (v ++ [STAR; STAR])) as [[b r]|];
      [discriminate | contradiction].
Qed.

Lemma matchBold_shape (s m rest : jsstring) :
  matchBold s = Some (m, rest) ->
  exists body, m = STAR :: STAR :: body ++ [STAR; STAR]
               /\ s = STAR :: STAR :: body ++ STAR :: STAR :: rest
               /\ closeBold (skipn 2 s) = Some (body, rest).
Proof.
  unfold matchBold. destruct s as [|c1 [|c2 t]]; try discriminate.
  destruct ((c1 =? STAR)%N && (c2 =? STAR)%N) eqn:E; [|discriminate].
  destruct (closeBold t) as [[body r]|] eqn:Ec; [|discriminate].
  intros H. injection H as <- <-.
  apply andb_true_iff in E. destruct E as [E1 E2].
  apply N.eqb_eq in E1, E2. subst. exists body. repeat split.
  - rewrite (closeBold_app t body r Ec). reflexivity.
  - exact Ec.
Qed.

Lemma matchBold_none_spec (s : jsstring) :
  noTerminator s ->
  matchBold s = None ->
  (if startsWith s [STAR; STAR] then untilMarker (skipn 2 s) else None) = None.
Proof.
  intros Hn Hm. destruct (startsWith s [STAR; STAR]) eqn:E; [|reflexivity].
  apply startsWith_stars in E. destruct E as (t & ->).
  inversion Hn as [|? ? _ Hn1]; subst. inversion Hn1 as [|? ? _ Hn2]; subst.
  cbn [skipn]. rewrite <- (closeBold_untilMarker t Hn2).
  unfold matchBold in Hm. rewrite N.eqb_refl in Hm. cbn [andb] in Hm.
  destruct (closeBold t) as [[b r]|]; [discriminate | reflexivity].
Qed.

Lemma spans_go_agree (fuel : nat) (acc s : jsstring) :
  List.length s < fuel ->
  noTerminator (acc ++ s) ->
  (acc <> [] -> matchBold (acc ++ s) = None) ->
  Forall (fun seg => seg <> [STAR; STAR] /\ seg <> [STAR; STAR; STAR])
    (filter (fun x => negb (isEmpty x)) (splitBold_go fuel acc s)) ->
  map spanOf (filter (fun x => negb (isEmpty x)) (splitBold_go fuel acc s))
  = specSpans_go fuel acc s.
Proof.
  revert acc s. induction fuel as [|fuel IH]; intros acc s Hlen Hn Hacc Hdeg.
  - inversion Hlen.
  - destruct s as [|c t].
    + simpl in *. rewrite app_nil_r in Hn, Hacc.
      destruct acc as [|a acc']; [reflexivity|].
      simpl in *. unfold regularSpan. simpl.
      inversion Hdeg as [|? ? [H2 H3] _]; subst.
      unfold spanOf, cleanText.
      rewrite (unmatched_at_end_regular (a :: acc') Hn
                 (Hacc ltac:(discriminate)) H2 H3).
      reflexivity.
    + apply noTerminator_app in Hn as Hn'. destruct Hn' as [Hna Hns].
      revert Hdeg. cbn [splitBold_go specSpans_go].
      destruct (matchBold (c :: t)) as [[m rest]|] eqn:Em; intros Hdeg.
      * destruct (matchBold_shape _ _ _ Em) as (body & -> & Es & Ec).
        injection Es as -> ->. clear Em.
        cbn [startsWith]. rewrite N.eqb_refl. cbn [andb skipn] in *.
        inversion Hns as [|? ? _ Hn1]; subst.
        inversion Hn1 as [|? ? _ Hn2]; subst.
        rewrite <- (closeBold_untilMarker _ Hn2), Ec.
        apply noTerminator_app in Hn2. destruct Hn2 as [_ Hn3].
        inversion Hn3 as [|? ? _ Hn4]; subst.
        inversion Hn4 as [|? ? _ Hnr]; subst.
        assert (Hrest : List.length rest < fuel).
        { simpl in Hlen. rewrite length_app in Hlen. simpl in Hlen. lia. }
        assert (Hm : spanOf (STAR :: STAR :: body ++ [STAR; STAR]) = (body, true)).
        { unfold spanOf. destruct (matched_segment_is_bold body) as [-> ->].
          reflexivity. }
        destruct acc as [|a acc'].
        -- cbn [filter isEmpty negb map regularSpan app] in *.
           inversion Hdeg as [|? ? _ Hdeg']; subst.
           rewrite Hm.
           rewrite (IH [] rest Hrest Hnr ltac:(intros F; contradiction) Hdeg').
           reflexivity.
        -- cbn [filter isEmpty negb map] in *. unfold regularSpan.
           cbn [isEmpty app].
           inversion Hdeg as [|? ? _ Hdeg1]; subst.
           inversion Hdeg1 as [|? ? _ Hdeg2]; subst.
           rewrite Hm.
           rewrite (IH [] rest Hrest Hnr ltac:(intros F; contradiction) Hdeg2).
           unfold spanOf at 1, cleanText.
           rewrite (unmatched_before_match_regular (a :: acc') body rest Hna
                      (Hacc ltac:(discriminate))).
           reflexivity.
      * rewrite (matchBold_none_spec (c :: t) Hns Em).
        apply IH.
        -- simpl in Hlen. lia.
        -- rewrite <- app_assoc. exact Hn.
        -- intros _. rewrite <- app_assoc. simpl.
           destruct acc as [|a acc']; [exact Em | apply Hacc; discriminate].
        -- exact Hdeg.
Qed.

(** On a text without line terminators in which no segment is made of two
    or three asterisks, the spans of the code are the spans of the
    specification: the text between paired markers is bold, without its
    markers, and the rest is regular. *)
Lemma spans_agree_with_spec (text : jsstring) :
  noTerminator text ->
  Forall (fun seg => seg <> [STAR; STAR] /\ seg <> [STAR; STAR; STAR])
    (boldSegments text) ->
  spans text = specSpans text.
Proof.
  intros Hn Hdeg. unfold spans, specSpans, boldSegments, splitBold.
  apply (spans_go_agree (S (List.length text)) [] text).
  - lia.
  - exact Hn.
  - intros F. contradiction.
  - exact Hdeg.
Qed.

End Spans.

(* ================================================================== *)
(** * The bullet branch runs the same wrap loop *)

Section Bullet.
Local Open Scope Q_scope.
Variable W : Font -> jsstring -> Q -> Q.

Lemma bulletWord_sim (st0 : Layout) ws (word : jsstring) (isBold : bool) :
  wrapInv bulletMaxWidth ws ->
  let fnt := if isBold then HelveticaBold else Helvetica in
  bulletWord W fnt (bulletState W st0 ws) word
  = bulletState W st0
      (wrapWord bulletMaxWidth ws (mkSeg word isBold (W fnt word bulletSize))).
Proof.
  intros (init & l & Hl & _ & _) fnt. destruct ws as [lines cur].
  simpl in Hl. subst lines.
  rewrite wrapWord_snoc. unfold bulletState, bulletWord. simpl fst. simpl snd.
  rewrite removelast_last, last_last. simpl seg_width. simpl seg_text.
  destruct (Qltb bulletMaxWidth (cur + W fnt word bulletSize) && nonBlank word).
  - simpl fst. simpl snd.
    rewrite removelast_last, last_last, fold_left_app. reflexivity.
  - simpl fst. simpl snd.
    rewrite removelast_last, last_last, map_app. reflexivity.
Qed.

Lemma bulletSegment_sim (st0 : Layout) ws (seg : jsstring) :
  wrapInv bulletMaxWidth ws ->
  bulletSegment W (bulletState W st0 ws) seg
  = bulletState W st0
      (fold_left (wrapWord bulletMaxWidth)
         (segmentTokens W Helvetica bulletSize seg) ws).
Proof.
  unfold bulletSegment, segmentTokens.
  generalize (splitWs (cleanText seg)) as words.
  intros words. revert ws.
  induction words as [|word words IH]; intros ws H; cbn [fold_left map];
    [reflexivity|].
  rewrite (bulletWord_sim st0 ws word (isBoldSegment seg) H).
  apply IH, wrapWord_inv, H.
Qed.

Lemma bulletSegments_sim (st0 : Layout) segments ws :
  wrapInv bulletMaxWidth ws ->
  fold_left (bulletSegment W) segments (bulletState W st0 ws)
  = bulletState W st0
      (fold_left (wrapWord bulletMaxWidth)
         (flat_map (segmentTokens W Helvetica bulletSize) segments) ws).
Proof.
  revert ws.
  induction segments as [|seg segments IH]; intros ws H;
    cbn [fold_left flat_map]; [reflexivity|].
  rewrite bulletSegment_sim by assumption.
  rewrite fold_left_app. apply IH, fold_wrapWord_inv, H.
Qed.

(** [drawBullet] draws the glyph and then places the lines the wrap loop
    gives for the text of the bullet. *)
Lemma drawBullet_lines (line : jsstring) (st : Layout) :
  drawBullet W line st
  = placeBulletLines W (bulletLines W line)
      (draw (DrawText bulletGlyph margin (currentY st) 12 Helvetica None) st).
Proof.
  unfold drawBullet, placeBulletLines, bulletLines, wrapTokens, richTokens.
  set (st1 := draw _ st).
  change (st1, @nil (jsstring * Font), 0) with (bulletState W st1 ([[]], 0)).
  rewrite bulletSegments_sim by apply wrapInv_start.
  unfold bulletState. reflexivity.
Qed.

End Bullet.

Section OverWideAlone.
Local Open Scope Q_scope.

Lemma fold_widths_ge (l : list Seg) (a : Q) :
  Forall (fun b => 0 <= seg_width b) l ->
  a <= fold_left (fun acc seg => acc + seg_width seg) l a.
Proof.
  revert a. induction l as [|s l IH]; intros a H; simpl.
  - lra.
  - inversion H as [|? ? Hs Hl]; subst.
    specialize (IH (a + seg_width s) Hl). lra.
Qed.

(** A token wider than the maximum that opens a line has that line to
    itself, up to blank tokens, when no width is negative. *)
Lemma overwide_token_alone (maxWidth : Q) (t : Seg) (post : list Seg) :
  fitsOrAlone maxWidth (t :: post) ->
  Forall (fun b => 0 <= seg_width b) (t :: post) ->
  maxWidth < seg_width t ->
  Forall blankToken post.
Proof.
  intros Hfit Hpos Hwide. apply Forall_forall. intros t' Hin.
  unfold blankToken. destruct (nonBlank (seg_text t')) eqn:Hnb; [|reflexivity].
  exfalso. apply in_split in Hin. destruct Hin as (p1 & p2 & ->).
  destruct (Hfit (t :: p1) t' p2 eq_refl Hnb) as [Hle | [Hnil _]];
    [|discriminate].
  assert (Hge : 0 + seg_width t <= fullLineWidth ((t :: p1) ++ [t'])).
  { unfold fullLineWidth. simpl. apply fold_widths_ge.
    inversion Hpos as [|? ? _ Hrest]; subst.
    apply Forall_app in Hrest. destruct Hrest as [H1 H2].
    apply Forall_app. split; [assumption|].
    inversion H2; subst. constructor; [assumption | constructor]. }
  lra.
Qed.

End OverWideAlone.

(* ================================================================== *)
(** * Claims on the wrap loop *)

Section WrapClaims.
Local Open Scope Q_scope.
Variable W : Font -> jsstring -> Q -> Q.

(** C1, as amended. For every text, font size and maximum width, in
    [drawRichText] and in the bullet branch alike: every non-blank token of
    a wrapped line closes a prefix of that line whose summed width is at
    most the maximum width, unless the token opens its line and is alone
    wider than the maximum; only a non-blank token opens a line after the
    first; the lines hold all tokens, whole and in order. Blank tokens are
    appended unchecked, so nothing is said of the width of a line with its
    trailing blanks. *)
Theorem wrap_prefixes_fit (maxWidth size : Q) (defaultFont : Font)
  (text line : jsstring) (st : Layout) :
  let lines :=
    fst (wrapSegments W maxWidth size defaultFont (boldSegments text)) in
  Forall (fitsOrAlone maxWidth) lines
  /\ Forall opensWithWord (tl lines)
  /\ concat lines = richTokens W size defaultFont text
  /\ drawBullet W line st
     = placeBulletLines W (bulletLines W line)
         (draw (DrawText bulletGlyph margin (currentY st) 12 Helvetica None) st)
  /\ Forall (fitsOrAlone bulletMaxWidth) (bulletLines W line)
  /\ Forall opensWithWord (tl (bulletLines W line))
  /\ concat (bulletLines W line)
     = richTokens W bulletSize Helvetica (substring 2 line).
Proof.
  cbv zeta. rewrite wrapSegments_tokens.
  repeat split.
  - apply wrapTokens_fits.
  - apply wrapTokens_breaks_at_words.
  - apply wrapTokens_concat.
  - apply drawBullet_lines.
  - apply wrapTokens_fits.
  - apply wrapTokens_breaks_at_words.
  - apply wrapTokens_concat.
Qed.

End WrapClaims.

(** C1, as stated, fails: in Helvetica at size 10 a word of 89 letters a
    (494.84 points) fits the 495.28 points of [drawRichText]; the space
    after it (2.78 points) is appended unchecked and brings the line to
    497.62 points, and no token of that line is wider than the maximum. *)
Lemma wrap_line_with_trailing_space_overflows :
  let maxWidth := (width - margin * 2)%Q in
  let text := repeat 97%N 89 ++ lit " b" in
  let lines :=
    fst (wrapSegments helveticaWidth maxWidth 10 Helvetica (boldSegments text)) in
  map (map seg_text) lines = [[repeat 97%N 89; lit " "]; [lit "b"]]
  /\ (fullLineWidth (hd [] lines) == 497.62)%Q
  /\ Forall (Forall (fun t => (seg_width t <= maxWidth)%Q)) lines
  /\ ~ Forall (fitsWhole maxWidth) lines.
Proof.
  cbv zeta.
  remember (fst (wrapSegments helveticaWidth (width - margin * 2) 10 Helvetica
                   (boldSegments (repeat 97%N 89 ++ lit " b")))) as lines eqn:E.
  vm_compute in E. subst lines.
  split; [reflexivity|]. split; [vm_compute; reflexivity|].
  split; [repeat constructor; vm_compute; discriminate|].
  intros H. apply Forall_inv in H. destruct H as [H | (t & E & _)].
  - vm_compute in H. apply H. reflexivity.
  - discriminate E.
Qed.

(* ================================================================== *)
(** * An over-wide first word *)

Section OverWide.
Local Open Scope Q_scope.

Lemma blank_tokens_stay (maxWidth : Q) toks init l cur :
  Forall blankToken toks ->
  fold_left (wrapWord maxWidth) toks (init ++ [l], cur)
  = (init ++ [l ++ toks], fold_left (fun a t => a + seg_width t) toks cur).
Proof.
  revert l cur.
  induction toks as [|tok toks IH]; intros l cur H; cbn [fold_left].
  - rewrite app_nil_r. reflexivity.
  - inversion H as [|? ? Hb Hrest]; subst.
    rewrite wrapWord_snoc. unfold blankToken in Hb. rewrite Hb, andb_false_r.
    rewrite IH by assumption. rewrite <- app_assoc. reflexivity.
Qed.

Lemma widths_sum_nonneg toks cur :
  Forall (fun b => 0 <= seg_width b) toks -> 0 <= cur ->
  0 <= fold_left (fun a t => a + seg_width t) toks cur.
Proof.
  revert cur. induction toks as [|tok toks IH]; intros cur H Hc; simpl.
  - assumption.
  - inversion H; subst. apply IH; [assumption | lra].
Qed.

Lemma wrapWord_headed (maxWidth : Q) pre t st tok :
  headed pre t (fst st) -> headed pre t (fst (wrapWord maxWidth st tok)).
Proof.
  destruct st as [lines cur]. intros (l & rest & E). simpl in E. subst lines.
  induction rest as [|x r _] using rev_ind.
  - change [pre; t :: l] with ([pre] ++ [t :: l]).
    rewrite wrapWord_snoc.
    destruct (Qltb maxWidth (cur + seg_width tok) && nonBlank (seg_text tok));
      simpl.
    + exists l, [[tok]]. reflexivity.
    + exists (l ++ [tok]), []. reflexivity.
  - change (pre :: (t :: l) :: r ++ [x]) with ((pre :: (t :: l) :: r) ++ [x]).
    rewrite wrapWord_snoc.
    destruct (Qltb maxWidth (cur + seg_width tok) && nonBlank (seg_text tok));
      simpl.
    + exists l, ((r ++ [x]) ++ [[tok]]). reflexivity.
    + exists l, (r ++ [x ++ [tok]]). reflexivity.
Qed.

Lemma fold_wrapWord_headed (maxWidth : Q) pre t toks st :
  headed pre t (fst st) ->
  headed pre t (fst (fold_left (wrapWord maxWidth) toks st)).
Proof.
  revert st. induction toks as [|tok toks IH]; intros st H; simpl.
  - assumption.
  - apply IH, wrapWord_headed, H.
Qed.

Lemma wrapTokens_overwide (maxWidth : Q) pre t post :
  Forall blankToken pre ->
  Forall (fun b => 0 <= seg_width b) pre ->
  nonBlank (seg_text t) = true ->
  maxWidth < seg_width t ->
  headed pre t (fst (wrapTokens maxWidth (pre ++ t :: post))).
Proof.
  intros Hblank Hpos Hnb Hwide. unfold wrapTokens.
  rewrite fold_left_app. cbn [fold_left].
  change [[]] with (@nil (list Seg) ++ [[]]).
  rewrite blank_tokens_stay by assumption. simpl app.
  change [pre] with ([] ++ [pre]).
  rewrite wrapWord_snoc.
  assert (Hsum : 0 <= fold_left (fun a b => a + seg_width b) pre 0)
    by (apply widths_sum_nonneg; [assumption | lra]).
  assert (Hlt : Qltb maxWidth
                  (fold_left (fun a b => a + seg_width b) pre 0 + seg_width t)
                = true) by (apply Qltb_lt; lra).
  rewrite Hlt, Hnb. simpl.
  apply fold_wrapWord_headed. exists [], []. reflexivity.
Qed.

Lemma drawWords_currentY size defaultFont color (line : list Seg) st x :
  currentY
    (fst (fold_left
            (fun '(st, cursorX) seg =>
               let font := if seg_isBold seg then HelveticaBold else defaultFont in
               (draw (DrawText (seg_text seg) cursorX (currentY st) size font
                        (Some color)) st,
                cursorX + seg_width seg))
            line (st, x)))
  = currentY st.
Proof.
  revert st x. induction line as [|seg line IH]; intros st x; simpl.
  - reflexivity.
  - rewrite IH. reflexivity.
Qed.

(** Every line [drawRichText] places, an empty one included, takes the page
    check and lowers the cursor by one and a half times the font size. *)
Lemma placeLine_currentY size defaultFont color align st line :
  currentY (placeLine size defaultFont color align st line)
  = currentY (breakIfLow st) - size * 1.5.
Proof.
  unfold placeLine.
  match goal with
  | |- context [fold_left ?f line (?s, ?x)] =>
      pose proof (drawWords_currentY size defaultFont color line s x) as H;
      destruct (fold_left f line (s, x)) as [st' x']
  end.
  simpl in *. rewrite H. reflexivity.
Qed.

End OverWide.

Section OverWideClaim.
Local Open Scope Q_scope.
Variable W : Font -> jsstring -> Q -> Q.

(** C10, as amended. In [drawRichText], when the first non-blank token [t]
    of the text is alone wider than the maximum width (the tokens [pre]
    before it being blank, of width at least zero), the first wrapped line
    holds exactly [pre] -- it holds no token at all when [t] is the very
    first token -- and the second line opens with [t]; placing that first
    line takes one page check and lowers the cursor by one line height
    before [t] is placed. *)
Theorem overwide_first_word_opens_second_line (maxWidth size : Q)
  (defaultFont : Font) (color : Color) (align : Align) (text : jsstring)
  (pre post : list Seg) (t : Seg) (st : Layout) :
  richTokens W size defaultFont text = pre ++ t :: post ->
  Forall blankToken pre ->
  Forall (fun b => 0 <= seg_width b) pre ->
  nonBlank (seg_text t) = true ->
  maxWidth < seg_width t ->
  exists l rest,
    fst (wrapSegments W maxWidth size defaultFont (boldSegments text))
    = pre :: (t :: l) :: rest
    /\ fold_left (placeLine size defaultFont color align)
         (pre :: (t :: l) :: rest) st
       = fold_left (placeLine size defaultFont color align) ((t :: l) :: rest)
           (placeLine size defaultFont color align st pre)
    /\ currentY (placeLine size defaultFont color align st pre)
       = currentY (breakIfLow st) - size * 1.5.
Proof.
  intros Htok Hblank Hpos Hnb Hwide.
  rewrite wrapSegments_tokens, Htok.
  destruct (wrapTokens_overwide maxWidth pre t post Hblank Hpos Hnb Hwide)
    as (l & rest & E).
  exists l, rest. repeat split.
  - exact E.
  - apply placeLine_currentY.
Qed.

End OverWideClaim.

(** C10 at a text that begins with its over-wide word, 90 letters a in
    Helvetica at size 10 (500.4 points against 495.28): the first wrapped
    line is empty. *)
Lemma overwide_first_word_opens_second_line_witness :
  exists l rest,
    fst (wrapSegments helveticaWidth (width - margin * 2) 10 Helvetica
           (boldSegments (repeat 97%N 90)))
    = [] :: (mkSeg (repeat 97%N 90) false
               (helveticaWidth Helvetica (repeat 97%N 90) 10) :: l) :: rest.
Proof.
  destruct (overwide_first_word_opens_second_line helveticaWidth
              (width - margin * 2) 10 Helvetica (rgb 0 0 0) AlignLeft
              (repeat 97%N 90) [] []
              (mkSeg (repeat 97%N 90) false
                 (helveticaWidth Helvetica (repeat 97%N 90) 10))
              initialLayout)
    as (l & rest & E & _).
  - vm_compute. reflexivity.
  - constructor.
  - constructor.
  - vm_compute. reflexivity.
  - vm_compute. reflexivity.
  - exists l, rest. exact E.
Defined.

(** C10, as stated, fails when blanks precede the over-wide word: for the
    text made of a space and 90 letters a, in Helvetica at size 10, the
    line emitted before the word holds two tokens, the empty piece before
    the space and the space. A title written with two spaces after its
    marker reaches [drawRichText] with such a text: 41 letters a in
    Helvetica-Bold at size 22 are 501.512 points wide. *)
Lemma overwide_word_after_space_line_not_empty :
  let maxWidth := (width - margin * 2)%Q in
  let text := lit " " ++ repeat 97%N 90 in
  let lines :=
    fst (wrapSegments helveticaWidth maxWidth 10 Helvetica (boldSegments text)) in
  map (map seg_text) lines = [[[]; lit " "]; [repeat 97%N 90]]
  /\ (maxWidth < helveticaWidth Helvetica (repeat 97%N 90) 10)%Q
  /\ hd [] lines <> []
  /\ (maxWidth < helveticaWidth HelveticaBold (repeat 97%N 41) 22)%Q
  /\ map opText (page (layoutPass helveticaWidth (lit "#  " ++ repeat 97%N 41)))
     = [[]; lit " "; repeat 97%N 41].
Proof.
  cbv zeta. split; [vm_compute; reflexivity|].
  split; [vm_compute; reflexivity|].
  split; [vm_compute; discriminate|].
  split; vm_compute; reflexivity.
Qed.

(* ================================================================== *)
(** * Pagination *)

Section Pagination.
Local Open Scope Q_scope.

Lemma breakIfLow_low (st : Layout) :
  currentY st < margin + 20 -> breakIfLow st = newPage st.
Proof.
  intros H. unfold breakIfLow. apply Qltb_lt in H. rewrite H. reflexivity.
Qed.

Lemma breakIfLow_high (st : Layout) :
  margin + 20 <= currentY st -> breakIfLow st = st.
Proof.
  intros H. unfold breakIfLow. apply Qltb_ge in H. rewrite H. reflexivity.
Qed.

(** After the page check the cursor is at least 20 points above the
    bottom margin, so no run of [drawRichText] goes under it. *)
Lemma breakIfLow_clear (st : Layout) : margin + 20 <= currentY (breakIfLow st).
Proof.
  unfold breakIfLow. destruct (Qltb (currentY st) (margin + 20)) eqn:E.
  - vm_compute. discriminate.
  - apply Qltb_ge, E.
Qed.

Lemma drawWords_ops size defaultFont color (line : list Seg) st x :
  fst (fold_left
         (fun '(st, cursorX) seg =>
            let font := if seg_isBold seg then HelveticaBold else defaultFont in
            (draw (DrawText (seg_text seg) cursorX (currentY st) size font
                     (Some color)) st,
             cursorX + seg_width seg))
         line (st, x))
  = {| earlier := earlier st;
       page := page st ++ richLineOps size defaultFont color (currentY st) x line;
       currentY := currentY st |}.
Proof.
  revert st x. induction line as [|seg line IH]; intros st x; simpl.
  - rewrite app_nil_r. destruct st; reflexivity.
  - rewrite IH. simpl. rewrite <- app_assoc. reflexivity.
Qed.

(** [placeLine] in one piece: the page check, the runs of the line, the
    cursor lowered. *)
Lemma placeLine_ops size defaultFont color align st line :
  placeLine size defaultFont color align st line
  = let st1 := breakIfLow st in
    {| earlier := earlier st1;
       page := page st1
               ++ richLineOps size defaultFont color (currentY st1)
                    (startX align line) line;
       currentY := currentY st1 - size * 1.5 |}.
Proof.
  unfold placeLine. cbv zeta.
  match goal with
  | |- context [fold_left ?f line (?s, ?x)] =>
      pose proof (drawWords_ops size defaultFont color line s x) as H;
      destruct (fold_left f line (s, x)) as [st' x']
  end.
  simpl in H. subst st'. reflexivity.
Qed.

(** With the cursor at [margin + 20] or above, the line stays on the
    current page, at the cursor. *)
Lemma placeLine_high size defaultFont color align st line :
  margin + 20 <= currentY st ->
  pages (placeLine size defaultFont color align st line)
  = earlier st
    ++ [page st
        ++ richLineOps size defaultFont color (currentY st)
             (startX align line) line].
Proof.
  intros H. rewrite placeLine_ops, (breakIfLow_high st H). reflexivity.
Qed.

Lemma richLineOps_y size defaultFont color y x line :
  Forall (fun op => opY op = y) (richLineOps size defaultFont color y x line).
Proof.
  revert x. induction line as [|seg line IH]; intros x; simpl; constructor.
  - reflexivity.
  - apply IH.
Qed.

End Pagination.

Section PaginationClaim.
Local Open Scope Q_scope.
Variable W : Font -> jsstring -> Q -> Q.

(** C3, as amended. The threshold is the bottom margin plus a fixed 20
    points, whatever the font size. A line [drawRichText] is about to place
    while the cursor is under [margin + 20] goes to a new page, all its
    runs at [height - margin]. In the bullet branch, when a word overflows
    and the line before it is flushed, the cursor lowered by that line is
    checked: if it is under [margin + 20], the new line, opened by the
    word, starts on an empty new page with the cursor at
    [height - margin]. *)
Theorem low_cursor_starts_new_page (size : Q) (defaultFont : Font)
  (color : Color) (align : Align) (st : Layout) (line : list Seg)
  (stb : Layout) (fnt : Font) (lineWords : list (jsstring * Font))
  (currentW : Q) (w : jsstring) :
  currentY st < margin + 20 ->
  Qltb bulletMaxWidth (currentW + W fnt w bulletSize) && nonBlank w = true ->
  currentY stb - bulletSize * 1.5 < margin + 20 ->
  let st' := placeLine size defaultFont color align st line in
  let '(stb', lineWords', _) := bulletWord W fnt (stb, lineWords, currentW) w in
  (pages st'
   = pages st
     ++ [richLineOps size defaultFont color (height - margin)
           (startX align line) line]
   /\ Forall (fun op => opY op = height - margin) (page st')
   /\ currentY st' = height - margin - size * 1.5)
  /\ (pages stb' = earlier stb ++ [page (drawLineWords W lineWords stb); []]
      /\ currentY stb' = height - margin
      /\ lineWords' = [(w, fnt)]).
Proof.
  intros Hlow Hover Hblow. cbv zeta. unfold bulletWord. rewrite Hover.
  split.
  - rewrite placeLine_ops, (breakIfLow_low st Hlow). cbv zeta.
    unfold pages. simpl. repeat split.
    apply richLineOps_y.
  - assert (Hc : forall lw s, currentY (drawLineWords W lw s) = currentY s).
    { intros lw s. unfold drawLineWords.
      generalize bulletMargin as x. revert s.
      induction lw as [|x0 lw IH]; intros s x; simpl; [reflexivity|].
      rewrite IH. reflexivity. }
    assert (He : forall lw s, earlier (drawLineWords W lw s) = earlier s).
    { intros lw s. unfold drawLineWords.
      generalize bulletMargin as x. revert s.
      induction lw as [|x0 lw IH]; intros s x; simpl; [reflexivity|].
      rewrite IH. reflexivity. }
    rewrite breakIfLow_low by (simpl; rewrite Hc; exact Hblow).
    unfold pages, newPage. simpl. rewrite He, <- app_assoc.
    repeat split.
Qed.

End PaginationClaim.

(** C3 at a cursor of 60 points: the line of [drawRichText] moves to the
    top of a new page. *)
Lemma low_cursor_starts_new_page_witness :
  let st := mkLayout [] [] 60 in
  let line := [mkSeg (lit "T") false 10] in
  let st' := placeLine 22 HelveticaBold (rgb 0 0 0) AlignLeft st line in
  pages st'
  = pages st
    ++ [richLineOps 22 HelveticaBold (rgb 0 0 0) (height - margin)%Q
          (startX AlignLeft line) line].
Proof.
  cbv zeta.
  pose proof (low_cursor_starts_new_page fixedPitch 22 HelveticaBold (rgb 0 0 0)
                AlignLeft (mkLayout [] [] 60) [mkSeg (lit "T") false 10]
                (mkLayout [] [] 60) Helvetica [] 480 (lit "ab")) as H.
  cbv zeta in H.
  destruct (bulletWord fixedPitch Helvetica (mkLayout [] [] 60, [], 480%Q) (lit "ab"))
    as [[stb' lw'] cw'].
  apply H; vm_compute; reflexivity.
Defined.

(** C3, as stated with one line height as the threshold, fails for a
    title: after 89 empty lines the cursor is at 79.89, less than the
    margin plus the 33 points of a size 22 line, and the title is placed
    there, on the first page. *)
Lemma title_placed_with_less_than_a_line_left :
  let content := repeat LF 89 ++ lit "# T" in
  let before := layoutPass fixedPitch (repeat LF 88) in
  (currentY before == 79.89)%Q
  /\ (currentY before < margin + 22 * 1.5)%Q
  /\ exists x,
       pages (layoutPass fixedPitch content)
       = [[DrawText (lit "T") x (currentY before) 22 HelveticaBold
             (Some (rgb 0 0 0))]].
Proof.
  cbv zeta. split; [vm_compute; reflexivity|].
  split; [vm_compute; reflexivity|].
  eexists. vm_compute. reflexivity.
Qed.

Section RichTextClear.
Local Open Scope Q_scope.
Variable W : Font -> jsstring -> Q -> Q.

Lemma richLineOps_clear size defaultFont color y x line :
  margin + 20 <= y ->
  Forall runClear (richLineOps size defaultFont color y x line).
Proof.
  intros Hy. revert x.
  induction line as [|seg line IH]; intros x; simpl; constructor.
  - exact Hy.
  - apply IH.
Qed.

Lemma breakIfLow_runsClear (st : Layout) :
  runsClear st -> runsClear (breakIfLow st).
Proof.
  unfold breakIfLow. destruct (Qltb (currentY st) (margin + 20)); [|auto].
  unfold runsClear, pages, newPage. simpl. intros H.
  apply Forall_app. split; [assumption | repeat constructor].
Qed.

Lemma placeLine_runsClear size defaultFont color align st line :
  runsClear st -> runsClear (placeLine size defaultFont color align st line).
Proof.
  intros H. rewrite placeLine_ops. cbv zeta.
  pose proof (breakIfLow_runsClear st H) as H1.
  pose proof (breakIfLow_clear st) as Hy.
  unfold runsClear, pages in *. simpl.
  apply Forall_app in H1. destruct H1 as [He Hp].
  apply Forall_app. split; [assumption|].
  constructor; [|constructor].
  apply Forall_app. split.
  - inversion Hp; assumption.
  - apply richLineOps_clear, Hy.
Qed.

(** [drawRichText] keeps every text run at least 20 points above the
    bottom margin: titles, headers and body lines never go under it. *)
Lemma drawRichText_runsClear (text : jsstring) (options : Options)
  (st : Layout) :
  runsClear st -> runsClear (drawRichText W text options st).
Proof.
  intros H. unfold drawRichText.
  destruct (wrapSegments W _ _ _ _) as [lines cur].
  match goal with
  | |- runsClear (moveDown _ (fold_left ?f lines st)) =>
      assert (Hf : runsClear (fold_left f lines st))
  end.
  { revert st H. induction lines as [|l lines IH]; intros st H; simpl.
    - assumption.
    - apply IH, placeLine_runsClear, H. }
  exact Hf.
Qed.

End RichTextClear.

(* ================================================================== *)
(** * What the bullet branch draws first *)

Section BulletGlyph.
Local Open Scope Q_scope.
Variable W : Font -> jsstring -> Q -> Q.

Lemma extends_refl (st : Layout) : extends st st.
Proof. exists [], []. unfold pages. rewrite app_nil_r. reflexivity. Qed.

Lemma extends_trans (a b c : Layout) :
  extends a b -> extends b c -> extends a c.
Proof.
  intros (ops & rest & Hab) (ops' & rest' & Hbc). unfold extends.
  rewrite Hbc. unfold pages in Hab.
  induction rest as [|x r _] using rev_ind.
  - apply app_inj_tail in Hab. destruct Hab as [-> ->].
    exists (ops ++ ops'), rest'. rewrite app_assoc. reflexivity.
  - change ((page a ++ ops) :: r ++ [x])
      with (((page a ++ ops) :: r) ++ [x]) in Hab.
    rewrite app_assoc in Hab.
    apply app_inj_tail in Hab. destruct Hab as [-> ->].
    exists ops, (r ++ (x ++ ops') :: rest').
    rewrite <- app_assoc. reflexivity.
Qed.

Lemma extends_draw (op : Op) (st : Layout) : extends st (draw op st).
Proof. exists [op], []. reflexivity. Qed.

Lemma extends_moveDown (d : Q) (st : Layout) : extends st (moveDown d st).
Proof. exists [], []. unfold pages. simpl. rewrite app_nil_r. reflexivity. Qed.

Lemma extends_breakIfLow (st : Layout) : extends st (breakIfLow st).
Proof.
  unfold breakIfLow. destruct (Qltb (currentY st) (margin + 20)).
  - exists [], [[]]. unfold pages, newPage. simpl.
    rewrite app_nil_r, <- app_assoc. reflexivity.
  - apply extends_refl.
Qed.

Lemma extends_drawLineWords (lineWords : list (jsstring * Font)) (st : Layout) :
  extends st (drawLineWords W lineWords st).
Proof.
  unfold drawLineWords. generalize bulletMargin as cX. revert st.
  induction lineWords as [|lw lineWords IH]; intros st cX; cbn [fold_left fst].
  - apply extends_refl.
  - eapply extends_trans; [|apply IH]. apply extends_draw.
Qed.

Lemma extends_flushBulletLine (st : Layout) (l : list Seg) :
  extends st (flushBulletLine W st l).
Proof.
  unfold flushBulletLine.
  eapply extends_trans; [apply extends_drawLineWords|].
  eapply extends_trans; [apply extends_moveDown | apply extends_breakIfLow].
Qed.

Lemma extends_placeBulletLines (lines : list (list Seg)) (st : Layout) :
  extends st (placeBulletLines W lines st).
Proof.
  unfold placeBulletLines.
  assert (H : extends st (fold_left (flushBulletLine W) (removelast lines) st)).
  { generalize (removelast lines) as ls. intros ls. revert st.
    induction ls as [|l ls IH]; intros st; cbn [fold_left].
    - apply extends_refl.
    - eapply extends_trans; [apply extends_flushBulletLine | apply IH]. }
  eapply extends_trans; [exact H|].
  eapply extends_trans; [apply extends_drawLineWords | apply extends_moveDown].
Qed.

(** Whatever the cursor, [drawBullet] puts the glyph on the current page at
    [currentY]: no page check comes before it. *)
Lemma drawBullet_glyph_unchecked (line : jsstring) (st : Layout) :
  exists ops rest,
    pages (drawBullet W line st)
    = earlier st
      ++ (page st
          ++ DrawText bulletGlyph margin (currentY st) 12 Helvetica None :: ops)
         :: rest.
Proof.
  rewrite drawBullet_lines.
  destruct (extends_placeBulletLines (bulletLines W line)
              (draw (DrawText bulletGlyph margin (currentY st) 12 Helvetica None) st))
    as (ops & rest & H).
  exists ops, rest. rewrite H. simpl. rewrite <- app_assoc. reflexivity.
Qed.

End BulletGlyph.

(* ================================================================== *)
(** * Runs of the layout pass *)

(** C2. Whatever the metric and the cursor, the bullet branch draws the
    glyph at [currentY] on the current page, with no page check before it.
    In a resume of 45 one-word bullets each bullet lowers the cursor by 17
    points without a check, and the glyph of the 45th bullet is drawn at
    43.89, under the bottom margin of 50, on the only page of the
    document. *)
Theorem bullets_run_below_bottom_margin :
  (forall (W : Font -> jsstring -> Q -> Q) (line : jsstring) (st : Layout),
     exists ops rest,
       pages (drawBullet W line st)
       = earlier st
         ++ (page st
             ++ DrawText bulletGlyph margin (currentY st) 12 Helvetica None :: ops)
            :: rest)
  /\ let content := concat (repeat (lit "- a" ++ [LF]) 44) ++ lit "- a" in
     let st := layoutPass fixedPitch content in
     earlier st = []
     /\ existsb belowMargin (page st) = true
     /\ exists y,
          nth_error (page st) 88
          = Some (DrawText bulletGlyph margin y 12 Helvetica None)
          /\ (y == 43.89)%Q /\ (y < margin)%Q.
Proof.
  split; [intros W line st; apply drawBullet_glyph_unchecked|].
  cbv zeta. split; [vm_compute; reflexivity|].
  split; [vm_compute; reflexivity|].
  eexists. split; [vm_compute; reflexivity|].
  split; vm_compute; reflexivity.
Qed.

Section Lookback.
Variable W : Font -> jsstring -> Q -> Q.

(** What the last branch of the loop does: the style of a body line is
    decided by the raw previous element of the line array. *)
Lemma body_line_style (lines : list jsstring) (i : nat) (st : Layout) :
  let line := trim (nth i lines []) in
  isEmpty line = false ->
  startsWith line titleMark = false ->
  startsWith line sectionMark = false ->
  startsWith line subsectionMark = false ->
  startsWith line (lit "- ") || startsWith line (lit "* ") = false ->
  let isContact :=
    (0 <? i)%nat && startsWith (nth (i - 1) lines []) titleMark in
  renderLine W lines i st
  = drawRichText W line
      (mkOptions (Some 10%Q) (Some Helvetica)
         (Some (if isContact then rgb 0.3 0.3 0.3 else rgb 0 0 0))
         (Some (if isContact then AlignCenter else AlignLeft)))
      st.
Proof.
  cbv zeta. intros H1 H2 H3 H4 H5. unfold renderLine.
  rewrite H1, H2, H3, H4, H5. reflexivity.
Qed.

End Lookback.

(** C6. An indented title line: the loop trims it and renders it as the
    title (size 22, bold, centred), but the look-back tests the untrimmed
    line, so, whatever the metric, the line after it is drawn with the
    options of an ordinary body line: at the left margin, in black, instead
    of centred in the muted colour. *)
Theorem contact_line_after_indented_title :
  let content := lit "  # Jane Doe" ++ [LF] ++ lit "jane@x.com" in
  let lines := splitOn LF content in
  startsWith (trim (nth 0 lines [])) titleMark = true
  /\ startsWith (nth 0 lines []) titleMark = false
  /\ (forall (W : Font -> jsstring -> Q -> Q) (st : Layout),
        renderLine W lines 0 st
        = moveDown 10
            (drawRichText W (lit "Jane Doe")
               (mkOptions (Some 22%Q) (Some HelveticaBold) None (Some AlignCenter))
               st)
        /\ renderLine W lines 1 st
           = drawRichText W (lit "jane@x.com")
               (mkOptions (Some 10%Q) (Some Helvetica) (Some (rgb 0 0 0))
                  (Some AlignLeft))
               st)
  /\ exists x0 y0 y1,
       nth_error (page (layoutPass fixedPitch content)) 0
       = Some (DrawText (lit "Jane") x0 y0 22 HelveticaBold (Some (rgb 0 0 0)))
       /\ nth_error (page (layoutPass fixedPitch content)) 3
          = Some (DrawText (lit "jane@x.com") margin y1 10 Helvetica
                    (Some (rgb 0 0 0))).
Proof.
  cbv zeta. split; [vm_compute; reflexivity|].
  split; [vm_compute; reflexivity|].
  split; [intros W st; split; reflexivity|].
  do 3 eexists. split; vm_compute; reflexivity.
Qed.

(** C7. A line made of three asterisks holds no pair of markers, so its
    text is one regular span; the code finds no match either, but then
    takes the segment for a bold one because it starts and ends with two
    asterisks, and [slice(2, -2)] leaves the empty text: the asterisks are
    dropped. The same happens to the two asterisks left after a bold
    span. *)
Theorem unpaired_asterisks_are_dropped :
  spans (lit "***") = [([], true)]
  /\ specSpans (lit "***") = [(lit "***", false)]
  /\ spans (lit "**a****") = [(lit "a", true); ([], true)]
  /\ specSpans (lit "**a****") = [(lit "a", true); (lit "**", false)]
  /\ map (map opText) (pages (layoutPass fixedPitch (lit "***"))) = [[[]]].
Proof.
  repeat split; vm_compute; reflexivity.
Qed.

(* ================================================================== *)
(** * The optimisation service and the handlers *)

Import Json Gemini App Samples Requests.

Section ServiceClaims.
Variable JSON_parse : jsstring -> option json.
Variable syntaxErrorMessage : jsstring -> jsstring.

(** C4, as amended. [optimizeResume] rejects exactly when the generation
    call throws or the text it parses is not JSON (in the part_001 variant
    also when the response text is missing or empty); whatever value
    [JSON.parse] returns is the result as it is, with no check of the
    required fields, and without a response text geminiService.ts resolves
    with what the literal [{}] parses to. *)
Theorem optimizeResume_rejects_only_unparsable (api : ApiOutcome) :
  (forall v,
     optimizeResume JSON_parse api = Resolved v
     <-> exists text, api = ApiResponds text
                      /\ JSON_parse (parsedText text) = Some v)
  /\ ((exists m, optimizeResume JSON_parse api = Rejected m)
      <-> (exists m, api = ApiThrows m)
          \/ exists text, api = ApiResponds text
                          /\ JSON_parse (parsedText text) = None)
  /\ (forall v,
        optimizeResume_part001 JSON_parse syntaxErrorMessage api = Resolved v
        <-> exists t, api = ApiResponds (Some t) /\ t <> []
                      /\ JSON_parse t = Some v)
  /\ (forall v,
        JSON_parse (lit "{}") = Some v ->
        optimizeResume JSON_parse (ApiResponds None) = Resolved v
        /\ optimizeResume JSON_parse (ApiResponds (Some [])) = Resolved v).
Proof.
  split; [|split; [|split]].
  - intros v. split.
    + destruct api as [m|text]; simpl; [discriminate|].
      fold (parsedText text).
      destruct (JSON_parse (parsedText text)) eqn:E; [|discriminate].
      intros H. injection H as ->. exists text. auto.
    + intros (text & -> & E). simpl. fold (parsedText text).
      rewrite E. reflexivity.
  - split.
    + destruct api as [m|text]; simpl.
      * intros _. left. exists m. reflexivity.
      * fold (parsedText text).
        destruct (JSON_parse (parsedText text)) eqn:E.
        -- intros (m & H). discriminate.
        -- intros _. right. exists text. auto.
    + intros [(m & ->) | (text & -> & E)]; simpl.
      * eexists. reflexivity.
      * fold (parsedText text). rewrite E. eexists. reflexivity.
  - intros v. split.
    + destruct api as [m|[t|]]; simpl; try discriminate.
      destruct t as [|c t]; simpl; [discriminate|].
      destruct (JSON_parse (c :: t)) eqn:E; [|discriminate].
      intros H. injection H as ->. exists (c :: t).
      repeat split; [discriminate | assumption].
    + intros (t & -> & Hne & E). simpl.
      destruct t as [|c t]; [contradiction|]. simpl. rewrite E. reflexivity.
  - intros v E. simpl. unfold orElse. simpl. rewrite E. auto.
Qed.

End ServiceClaims.

(** C4, as stated, fails. With no response text geminiService.ts parses
    the literal [{}] and resolves with the empty object; a response that
    holds one of the four required fields is returned as it is by both
    variants. *)
Lemma optimizeResume_returns_incomplete_objects :
  let partial := lit "{" ++ quoted (lit "optimizedContent") ++ lit ":"
                 ++ quoted (lit "x") ++ lit "}" in
  optimizeResume Json.parse (ApiResponds None) = Resolved (JObject [])
  /\ hasRequiredFields (JObject []) = false
  /\ optimizeResume Json.parse (ApiResponds (Some partial))
     = Resolved (JObject [(lit "optimizedContent", JString (lit "x"))])
  /\ optimizeResume_part001 Json.parse engineSyntaxError (ApiResponds (Some partial))
     = Resolved (JObject [(lit "optimizedContent", JString (lit "x"))])
  /\ hasRequiredFields (JObject [(lit "optimizedContent", JString (lit "x"))])
     = false.
Proof.
  repeat split; vm_compute; reflexivity.
Qed.

Section HandlerClaims.
Variable optimizeResume : ResumeData -> Settled json.
Variable nullReadMessage : jsstring.

(** C5. When the request passes the two checks and [optimizeResume]
    rejects it, [handleOptimize] returns with the editor content, the
    stored result and the step as they were; only [error] (set to the one
    message) and [loading] (false) are written. *)
Theorem failed_optimization_keeps_editor_and_result (st : AppState)
  (text message : jsstring) :
  inputContent st = str text ->
  trim text <> [] ->
  trim (targetTitle st) <> [] ->
  optimizeResume (requestOf st) = Rejected message ->
  let st' := fst (handleOptimize optimizeResume nullReadMessage st) in
  inputContent st' = inputContent st
  /\ result st' = result st
  /\ step st' = step st
  /\ error st'
     = Some (orElse message (lit "Optimization failed. Please try again."))
  /\ st' = setLoading false (setError (error st') st)
  /\ snd (handleOptimize optimizeResume nullReadMessage st) = Returned.
Proof.
  intros Hc Htext Htitle Hrej. cbv zeta. unfold handleOptimize.
  assert (Ht : trimOf (inputContent st) = Some (trim text))
    by (rewrite Hc; reflexivity).
  rewrite Ht.
  destruct (trim text) as [|c r]; [contradiction|].
  destruct (trim (targetTitle st)) as [|c' r']; [contradiction|].
  cbn [isEmpty orb].
  change (mkResumeData _ _ _ _ _) with (requestOf st).
  rewrite Hrej. cbn. repeat split.
Qed.

End HandlerClaims.

Section Part001Optimize.
Variable optimizeResume : ResumeData -> Settled json.

(** The same for the variant of part_001, whose request carries no job
    description. *)
Lemma failed_optimization_keeps_state_part001 (st : AppState)
  (text message : jsstring) :
  inputContent st = str text ->
  trim text <> [] ->
  trim (targetTitle st) <> [] ->
  optimizeResume
    (mkResumeData (inputContent st) (targetTitle st) None (seniority st)
       (context st)) = Rejected message ->
  fst (handleOptimize_part001 optimizeResume st)
  = setLoading false
      (setError (Some (orElse message (lit "An unexpected error occurred."))) st).
Proof.
  intros Hc Htext Htitle Hrej. unfold handleOptimize_part001.
  assert (Ht : trimOf (inputContent st) = Some (trim text))
    by (rewrite Hc; reflexivity).
  rewrite Ht.
  destruct (trim text) as [|c r]; [contradiction|].
  destruct (trim (targetTitle st)) as [|c' r']; [contradiction|].
  cbn [isEmpty].
  change (mkResumeData (inputContent (setError None (setLoading true st))) _ _ _ _)
    with (mkResumeData (inputContent st) (targetTitle st) None (seniority st)
            (context st)).
  rewrite Hrej. reflexivity.
Qed.

End Part001Optimize.

Section ExportClaim.
Variable W : Font -> jsstring -> Q -> Q.
Variable pdfLibSucceeds : bool.

Lemma trimStart_blank (text : jsstring) :
  Forall (fun c => isWhiteSpace c = true) text -> trimStart text = [].
Proof.
  induction 1 as [|c text Hc _ IH]; simpl; [reflexivity|].
  rewrite Hc. exact IH.
Qed.

Lemma trim_blank (text : jsstring) :
  Forall (fun c => isWhiteSpace c = true) text -> trim text = [].
Proof.
  intros H. unfold trim, trimEnd. rewrite (trimStart_blank text H). reflexivity.
Qed.

(** C8. When the content to export is empty or made of white space only,
    [handleDownloadPDF] returns at its first check: [PDFDocument.create()]
    is not reached, so no page is added and no text placed, and no state
    cell is written. *)
Theorem blank_content_export_allocates_nothing (st : AppState)
  (text : jsstring) :
  contentToExport st = str text ->
  Forall (fun c => isWhiteSpace c = true) text ->
  handleDownloadPDF W pdfLibSucceeds st = (st, NotStarted, Returned).
Proof.
  intros Hc Hblank. unfold handleDownloadPDF. rewrite Hc. unfold str.
  rewrite (trim_blank text Hblank). reflexivity.
Qed.

End ExportClaim.

Section UploadClaim.
Variable toLowerCase : jsstring -> jsstring.
Variable extractTextFromPDF extractTextFromDOCX : list N -> Extracted.
Variable decode : list N -> jsstring.


End UploadClaim.

(** C5 at a filled form whose request fails in the generation call. *)
Lemma failed_optimization_keeps_editor_and_result_witness :
  let service := fun _ : ResumeData =>
    Gemini.optimizeResume Json.parse (ApiThrows (lit "503")) in
  let st' := fst (handleOptimize service engineNullRead filledForm) in
  inputContent st' = inputContent filledForm
  /\ result st' = result filledForm
  /\ step st' = step filledForm.
Proof.
  cbv zeta.
  destruct (failed_optimization_keeps_editor_and_result
              (fun _ : ResumeData =>
                 Gemini.optimizeResume Json.parse (ApiThrows (lit "503")))
              engineNullRead filledForm (lit "# Jane Doe")
              (lit "Failed to optimize resume. Please check your input and try again."))
    as (H1 & H2 & H3 & _).
  - reflexivity.
  - vm_compute. discriminate.
  - vm_compute. discriminate.
  - reflexivity.
  - auto.
Defined.

(** C8 at an editor that holds two spaces and a line feed. *)
Lemma blank_content_export_allocates_nothing_witness :
  let st := mkApp Step1 false false false None (str (lit "  " ++ [LF]))
              [] [] MID [] JNull in
  handleDownloadPDF fixedPitch true st = (st, NotStarted, Returned).
Proof.
  cbv zeta.
  apply (blank_content_export_allocates_nothing fixedPitch true _
           (lit "  " ++ [LF])).
  - reflexivity.
  - repeat constructor.
Defined.



(* ================================================================== *)
(** * Further properties of the wrap loop *)

Import Measures.

Section Greedy.
Local Open Scope Q_scope.

Lemma greedy_snoc_new (maxWidth : Q) init l next :
  greedy maxWidth (init ++ [l]) ->
  brokeForWord maxWidth l next ->
  greedy maxWidth ((init ++ [l]) ++ [next]).
Proof.
  induction init as [|a init IH]; intros H Hb.
  - simpl. auto.
  - destruct init as [|b init].
    + simpl in *. tauto.
    + change (greedy maxWidth (a :: ((b :: init) ++ [l]) ++ [next])).
      change (greedy maxWidth (a :: (b :: init) ++ [l])) in H.
      simpl in H. destruct H as [H1 H2].
      simpl. split; [exact H1|]. apply (IH H2 Hb).
Qed.

Lemma brokeForWord_extend (maxWidth : Q) full next tok :
  brokeForWord maxWidth full next ->
  brokeForWord maxWidth full (next ++ [tok]).
Proof.
  intros (t & r & -> & Hnb & Hw). exists t, (r ++ [tok]). auto.
Qed.

Lemma greedy_snoc_extend (maxWidth : Q) init l tok :
  greedy maxWidth (init ++ [l]) ->
  greedy maxWidth (init ++ [l ++ [tok]]).
Proof.
  induction init as [|a init IH]; intros H.
  - simpl. exact I.
  - destruct init as [|b init].
    + simpl in *. destruct H as [H _]. split; [|exact I].
      apply brokeForWord_extend, H.
    + change (greedy maxWidth (a :: (b :: init) ++ [l])) in H.
      simpl in H. destruct H as [H1 H2].
      change (greedy maxWidth (a :: (b :: init) ++ [l ++ [tok]])).
      simpl. split; [exact H1|]. apply (IH H2).
Qed.

Lemma wrapWord_greedy (maxWidth : Q) init l tok :
  greedy maxWidth (init ++ [l]) ->
  greedy maxWidth
    (fst (wrapWord maxWidth (init ++ [l], fullLineWidth l) tok)).
Proof.
  intros H. rewrite wrapWord_snoc.
  destruct (Qltb maxWidth (fullLineWidth l + seg_width tok)
            && nonBlank (seg_text tok)) eqn:Hbreak; cbn [fst].
  - apply andb_true_iff in Hbreak. destruct Hbreak as [Hlt Hnb].
    apply greedy_snoc_new; [exact H|].
    exists tok, []. repeat split; [exact Hnb | apply Qltb_lt, Hlt].
  - apply greedy_snoc_extend, H.
Qed.

Lemma fold_wrapWord_greedy (maxWidth : Q) tokens st :
  wrapInv maxWidth st ->
  greedy maxWidth (fst st) ->
  greedy maxWidth (fst (fold_left (wrapWord maxWidth) tokens st)).
Proof.
  revert st. induction tokens as [|tok tokens IH]; intros st Hinv H;
    cbn [fold_left]; [assumption|].
  apply IH; [apply wrapWord_inv, Hinv|].
  destruct st as [lines cur]. destruct Hinv as (init & l & Hl & Hc & _).
  simpl in Hl, Hc. subst lines cur. apply wrapWord_greedy, H.
Qed.

Lemma greedy_adjacent (maxWidth : Q) a full next b :
  greedy maxWidth (a ++ full :: next :: b) -> brokeForWord maxWidth full next.
Proof.
  induction a as [|x a IH]; intros H.
  - simpl in H. tauto.
  - destruct a as [|y a].
    + simpl in H. tauto.
    + change (greedy maxWidth (x :: (y :: a) ++ full :: next :: b)) in H.
      simpl in H. apply IH. tauto.
Qed.

End Greedy.

Section GreedyClaim.
Local Open Scope Q_scope.
Variable W : Font -> jsstring -> Q -> Q.

(** X1. The wrap loop of [drawRichText] is greedy: whenever a wrapped line
    is followed by another, the second opens with a non-blank token that
    did not fit, the width of the first line plus the width of that token
    being more than the maximum width. No line is closed early. *)
Theorem wrap_breaks_only_on_overflow (maxWidth size : Q) (defaultFont : Font)
  (text : jsstring) (before after : list (list Seg)) (full next : list Seg) :
  fst (wrapSegments W maxWidth size defaultFont (boldSegments text))
  = before ++ full :: next :: after ->
  exists t rest,
    next = t :: rest /\ nonBlank (seg_text t) = true
    /\ maxWidth < fullLineWidth full + seg_width t.
Proof.
  intros E. rewrite wrapSegments_tokens in E.
  apply (greedy_adjacent maxWidth before full next after).
  rewrite <- E. unfold wrapTokens.
  apply fold_wrapWord_greedy; [apply wrapInv_start | exact I].
Qed.

End GreedyClaim.

(** X1 at a text of two words that do not fit one line of 25 points. *)
Lemma wrap_breaks_only_on_overflow_witness :
  exists t rest,
    [mkSeg (lit "bb") false (fixedPitch Helvetica (lit "bb") 10)] = t :: rest
    /\ nonBlank (seg_text t) = true
    /\ (25 < fullLineWidth
               [mkSeg (lit "aaaa") false (fixedPitch Helvetica (lit "aaaa") 10);
                mkSeg (lit " ") false (fixedPitch Helvetica (lit " ") 10)]
             + seg_width t)%Q.
Proof.
  apply (wrap_breaks_only_on_overflow fixedPitch 25 10 Helvetica
           (lit "aaaa bb") [] []).
  vm_compute. reflexivity.
Defined.

(* ================================================================== *)
(** * Properties every drawn run keeps *)

Section PagesAll.
Local Open Scope Q_scope.
Variable P : Op -> Prop.

Lemma pagesAll_moveDown (d : Q) (st : Layout) :
  pagesAll P st -> pagesAll P (moveDown d st).
Proof. auto. Qed.

Lemma pagesAll_newPage (st : Layout) : pagesAll P st -> pagesAll P (newPage st).
Proof.
  unfold pagesAll, pages, newPage. simpl. intros H.
  apply Forall_app. split; [assumption | repeat constructor].
Qed.

Lemma pagesAll_breakIfLow (st : Layout) :
  pagesAll P st -> pagesAll P (breakIfLow st).
Proof.
  unfold breakIfLow. destruct (Qltb (currentY st) (margin + 20)); [|auto].
  apply pagesAll_newPage.
Qed.

Lemma pagesAll_append (st : Layout) (ops : list Op) (y : Q) :
  pagesAll P st -> Forall P ops ->
  pagesAll P {| earlier := earlier st; page := page st ++ ops; currentY := y |}.
Proof.
  unfold pagesAll, pages. simpl. intros H Hops.
  apply Forall_app in H. destruct H as [He Hp].
  apply Forall_app. split; [assumption|].
  constructor; [|constructor].
  apply Forall_app. split; [inversion Hp; assumption | assumption].
Qed.

Lemma pagesAll_draw (op : Op) (st : Layout) :
  pagesAll P st -> P op -> pagesAll P (draw op st).
Proof.
  intros H Hop. unfold draw. apply pagesAll_append; [assumption|].
  constructor; [assumption | constructor].
Qed.

Lemma pagesAll_placeLine size defaultFont color align st line :
  pagesAll P st ->
  Forall P (richLineOps size defaultFont color (currentY (breakIfLow st))
              (startX align line) line) ->
  pagesAll P (placeLine size defaultFont color align st line).
Proof.
  intros H Hops. rewrite placeLine_ops. cbv zeta.
  apply pagesAll_append; [apply pagesAll_breakIfLow, H | exact Hops].
Qed.

End PagesAll.

Section RightMargin.
Local Open Scope Q_scope.
Variable W : Font -> jsstring -> Q -> Q.




End RightMargin.


(* ================================================================== *)
(** * The margins over a whole pass *)

Section WholePass.
Local Open Scope Q_scope.
Variable W : Font -> jsstring -> Q -> Q.

Lemma fold_renderLine_inv (Inv : Layout -> Prop) (lines : list jsstring)
  (idxs : list nat) (st : Layout) :
  (forall i s, In i idxs -> Inv s -> Inv (renderLine W lines i s)) ->
  Inv st ->
  Inv (fold_left (fun s i => renderLine W lines i s) idxs st).
Proof.
  revert st. induction idxs as [|i idxs IH]; intros st Hstep Hst;
    cbn [fold_left]; [assumption|].
  apply IH.
  - intros j s Hj. apply Hstep. right. exact Hj.
  - apply Hstep; [left; reflexivity | exact Hst].
Qed.

Lemma renderLine_runsClear (lines : list jsstring) (i : nat) (st : Layout) :
  isBulletLine (nth i lines []) = false ->
  runsClear st -> runsClear (renderLine W lines i st).
Proof.
  unfold isBulletLine, renderLine. cbv zeta. intros Hb Hst. revert Hb.
  destruct (isEmpty (trim (nth i lines []))); [intros _; exact Hst|].
  destruct (startsWith (trim (nth i lines [])) titleMark).
  { intros _.
    apply (pagesAll_moveDown runClear), drawRichText_runsClear, Hst. }
  destruct (startsWith (trim (nth i lines [])) sectionMark).
  { intros _.
    apply (pagesAll_moveDown runClear), (pagesAll_draw runClear); [|exact I].
    apply drawRichText_runsClear, (pagesAll_moveDown runClear), Hst. }
  destruct (startsWith (trim (nth i lines [])) subsectionMark).
  { intros _. apply drawRichText_runsClear, Hst. }
  cbn [negb andb]. intros Hb. rewrite Hb.
  apply drawRichText_runsClear, Hst.
Qed.

(** X3. A text without bullet items is laid out with no text run under the
    bottom margin: whatever the metric, every run of the document is at
    least 20 points above it. Blank lines lower the cursor unchecked, but
    [drawRichText] checks the cursor before each line it places. *)
Theorem pass_without_bullets_keeps_bottom_margin (contentToExport : jsstring) :
  Forall (fun raw => isBulletLine raw = false) (splitOn LF contentToExport) ->
  runsClear (layoutPass W contentToExport).
Proof.
  intros H. unfold layoutPass. cbv zeta.
  apply (fold_renderLine_inv runsClear).
  - intros i s Hi Hs. apply renderLine_runsClear; [|exact Hs].
    apply in_seq in Hi. rewrite Forall_forall in H.
    apply H, nth_In. lia.
  - repeat constructor.
Qed.

(** ** The top margin *)

Lemma underTop_moveDown (d : Q) (st : Layout) :
  0 <= d -> underTop st -> underTop (moveDown d st).
Proof.
  intros Hd [Hc Hp]. split; [simpl; lra | exact Hp].
Qed.

Lemma underTop_breakIfLow (st : Layout) :
  underTop st -> underTop (breakIfLow st).
Proof.
  intros [Hc Hp]. split.
  - unfold breakIfLow. destruct (Qltb (currentY st) (margin + 20)); simpl; lra.
  - apply pagesAll_breakIfLow, Hp.
Qed.

Lemma underTop_drawText text x size font color (st : Layout) :
  underTop st ->
  underTop (draw (DrawText text x (currentY st) size font color) st).
Proof.
  intros [Hc Hp]. split; [exact Hc|].
  apply pagesAll_draw; [exact Hp | exact Hc].
Qed.

Lemma richLineOps_belowTop size defaultFont color y x line :
  y <= height - margin ->
  Forall belowTop (richLineOps size defaultFont color y x line).
Proof.
  intros Hy. revert x.
  induction line as [|seg line IH]; intros x; cbn [richLineOps]; constructor.
  - exact Hy.
  - apply IH.
Qed.

Lemma underTop_placeLine size defaultFont color align st line :
  0 <= size -> underTop st ->
  underTop (placeLine size defaultFont color align st line)
  /\ currentY (placeLine size defaultFont color align st line)
     <= height - margin - size * 1.5.
Proof.
  intros Hs Hst. pose proof (underTop_breakIfLow st Hst) as [Hc Hp].
  split; [split|].
  - rewrite placeLine_currentY. lra.
  - apply pagesAll_placeLine; [apply Hst|].
    apply richLineOps_belowTop, Hc.
  - rewrite placeLine_currentY. lra.
Qed.

Lemma underTop_placeLines size defaultFont color align lines st :
  0 <= size -> underTop st -> lines <> [] ->
  underTop (fold_left (placeLine size defaultFont color align) lines st)
  /\ currentY (fold_left (placeLine size defaultFont color align) lines st)
     <= height - margin - size * 1.5.
Proof.
  intros Hs. revert st.
  induction lines as [|l lines IH]; intros st Hst Hne; [contradiction|].
  cbn [fold_left].
  destruct (underTop_placeLine size defaultFont color align st l Hs Hst)
    as [H1 H2].
  destruct lines as [|l' lines]; [simpl; auto|].
  apply IH; [exact H1 | discriminate].
Qed.

Lemma wrapSegments_nonempty maxWidth size defaultFont segments :
  fst (wrapSegments W maxWidth size defaultFont segments) <> [].
Proof.
  unfold wrapSegments. rewrite <- fold_left_flat_map.
  destruct (fold_wrapWord_inv maxWidth
              (flat_map (segmentTokens W defaultFont size) segments) _
              (wrapInv_start maxWidth)) as (init & l & E & _).
  rewrite E. destruct init; discriminate.
Qed.

(** After [drawRichText] with one of the sizes the loop uses, the cursor is
    at least one line and its gap under the top margin. *)
Lemma underTop_drawRichText text size defaultFont color align st :
  0 < size -> underTop st ->
  let st' := drawRichText W text (mkOptions (Some size) defaultFont color align) st in
  underTop st' /\ currentY st' <= height - margin - size * 1.5 - size * 0.4.
Proof.
  intros Hs Hst. cbv zeta. unfold drawRichText. cbn [opt_size].
  assert (Hq : Qeq_bool size 0 = false).
  { destruct (Qeq_bool size 0) eqn:E; [|reflexivity].
    apply Qeq_bool_iff in E. lra. }
  rewrite Hq.
  match goal with
  | |- context [wrapSegments W ?m size ?f ?segs] =>
      pose proof (wrapSegments_nonempty m size f segs) as Hne;
      destruct (wrapSegments W m size f segs) as [lines cur]
  end.
  cbn [fst] in Hne.
  match goal with
  | |- context [fold_left (placeLine size ?f ?c ?a) lines st] =>
      destruct (underTop_placeLines size f c a lines st) as [H1 H3];
      [lra | exact Hst | exact Hne |]
  end.
  split; [apply underTop_moveDown; [lra | exact H1]|].
  unfold moveDown. cbn [currentY]. lra.
Qed.

Lemma underTop_drawLineWords (lineWords : list (jsstring * Font)) (st : Layout) :
  underTop st ->
  underTop (drawLineWords W lineWords st)
  /\ currentY (drawLineWords W lineWords st) = currentY st.
Proof.
  unfold drawLineWords. generalize bulletMargin as cX. revert st.
  induction lineWords as [|lw lineWords IH]; intros st cX Hst;
    cbn [fold_left fst]; [auto|].
  destruct (IH (draw (DrawText (fst lw) cX (currentY st) bulletSize (snd lw) None) st)
              (cX + W (snd lw) (fst lw) bulletSize)
              (underTop_drawText _ _ _ _ _ st Hst)) as [H1 H2].
  split; [exact H1 | rewrite H2; reflexivity].
Qed.

Lemma underTop_drawBullet (line : jsstring) (st : Layout) :
  underTop st -> underTop (drawBullet W line st).
Proof.
  intros Hst. rewrite drawBullet_lines. unfold placeBulletLines.
  apply underTop_moveDown; [vm_compute; discriminate|].
  apply underTop_drawLineWords.
  generalize (removelast (bulletLines W line)) as ls.
  pose proof (underTop_drawText bulletGlyph margin 12 Helvetica None st Hst) as H0.
  revert H0.
  generalize (draw (DrawText bulletGlyph margin (currentY st) 12 Helvetica None) st)
    as s0.
  intros s0 H0 ls. revert s0 H0.
  induction ls as [|l ls IH]; intros s0 H0; cbn [fold_left]; [exact H0|].
  apply IH. unfold flushBulletLine.
  apply underTop_breakIfLow, underTop_moveDown; [vm_compute; discriminate|].
  apply underTop_drawLineWords, H0.
Qed.

Lemma underTop_renderLine (lines : list jsstring) (i : nat) (st : Layout) :
  underTop st -> underTop (renderLine W lines i st).
Proof.
  intros Hst. unfold renderLine. cbv zeta.
  destruct (isEmpty (trim (nth i lines []))).
  { apply underTop_moveDown; [vm_compute; discriminate | exact Hst]. }
  destruct (startsWith (trim (nth i lines [])) titleMark).
  { apply underTop_moveDown; [vm_compute; discriminate|].
    apply underTop_drawRichText; [reflexivity | exact Hst]. }
  destruct (startsWith (trim (nth i lines [])) sectionMark).
  { match goal with
    | |- context [drawRichText W ?t ?o ?s] =>
        destruct (underTop_drawRichText t 12 (Some HelveticaBold)
                    (Some (rgb 0.1 0.2 0.4)) None s) as [[H1 H2] H3];
        [reflexivity
        | apply underTop_moveDown; [vm_compute; discriminate | exact Hst] |]
    end.
    apply underTop_moveDown; [vm_compute; discriminate|].
    split; [exact H1|].
    apply pagesAll_draw; [exact H2|].
    simpl. unfold height, margin in *. lra. }
  destruct (startsWith (trim (nth i lines [])) subsectionMark).
  { apply underTop_drawRichText; [reflexivity | exact Hst]. }
  destruct (startsWith (trim (nth i lines [])) (lit "- ")
            || startsWith (trim (nth i lines [])) (lit "* ")).
  { apply underTop_drawBullet, Hst. }
  apply underTop_drawRichText; [reflexivity | exact Hst].
Qed.

(** X4. Whatever the text and the metric, nothing in the document is drawn
    above the top margin: every text run and every rule of every page lies
    at or under [height - margin]. *)
Theorem pass_keeps_top_margin (contentToExport : jsstring) :
  pagesAll belowTop (layoutPass W contentToExport).
Proof.
  unfold layoutPass. cbv zeta.
  apply (fold_renderLine_inv underTop).
  - intros i s _ Hs. apply underTop_renderLine, Hs.
  - split; [simpl; lra | repeat constructor].
Qed.

End WholePass.

(** X3 at a title, a contact line and a section header. *)
Lemma pass_without_bullets_keeps_bottom_margin_witness :
  runsClear
    (layoutPass fixedPitch
       (lit "# Jane Doe" ++ [LF] ++ lit "jane@x.com" ++ [LF] ++ lit "## Experience")).
Proof.
  apply pass_without_bullets_keeps_bottom_margin.
  repeat constructor.
Defined.

(* ================================================================== *)
(** * The pass only appends, and loses no text *)

Section AppendOnly.
Local Open Scope Q_scope.
Variable W : Font -> jsstring -> Q -> Q.

Lemma extends_placeLine size defaultFont color align st line :
  extends st (placeLine size defaultFont color align st line).
Proof.
  eapply extends_trans; [apply (extends_breakIfLow st)|].
  rewrite placeLine_ops. cbv zeta.
  eexists _, []. reflexivity.
Qed.

Lemma extends_drawRichText text options st :
  extends st (drawRichText W text options st).
Proof.
  unfold drawRichText. destruct (wrapSegments W _ _ _ _) as [lines cur].
  eapply extends_trans; [|apply extends_moveDown].
  generalize dependent st.
  induction lines as [|l lines IH]; intros st; cbn [fold_left].
  - apply extends_refl.
  - eapply extends_trans; [apply extends_placeLine | apply IH].
Qed.

Lemma extends_drawBullet line st : extends st (drawBullet W line st).
Proof.
  rewrite drawBullet_lines.
  eapply extends_trans; [apply extends_draw | apply extends_placeBulletLines].
Qed.

Lemma extends_length (st st' : Layout) :
  extends st st' -> (List.length (pages st) <= List.length (pages st'))%nat.
Proof.
  intros (ops & rest & E). rewrite E. unfold pages.
  rewrite !length_app. simpl. lia.
Qed.

(** X5. Laying out one more line of the text only appends: the pages
    before the current one stay as they are, the runs already on the
    current page stay in place at its beginning, and new runs and new pages
    come after them. The number of pages never goes down. *)
Theorem render_line_only_appends (lines : list jsstring) (i : nat)
  (st : Layout) :
  (exists ops rest,
     pages (renderLine W lines i st) = earlier st ++ (page st ++ ops) :: rest)
  /\ (List.length (pages st) <= List.length (pages (renderLine W lines i st)))%nat.
Proof.
  assert (H : extends st (renderLine W lines i st)).
  { unfold renderLine. cbv zeta.
    destruct (isEmpty (trim (nth i lines []))); [apply extends_moveDown|].
    destruct (startsWith (trim (nth i lines [])) titleMark).
    { eapply extends_trans; [apply extends_drawRichText | apply extends_moveDown]. }
    destruct (startsWith (trim (nth i lines [])) sectionMark).
    { eapply extends_trans; [apply extends_moveDown|].
      eapply extends_trans; [apply extends_drawRichText|].
      eapply extends_trans; [apply extends_draw | apply extends_moveDown]. }
    destruct (startsWith (trim (nth i lines [])) subsectionMark).
    { apply extends_drawRichText. }
    destruct (startsWith (trim (nth i lines [])) (lit "- ")
              || startsWith (trim (nth i lines [])) (lit "* ")).
    { apply extends_drawBullet. }
    apply extends_drawRichText. }
  split; [exact H | apply extends_length, H].
Qed.

(** ** The text that is drawn *)

Lemma splitWs_go_concat (inWs : bool) (cur s : jsstring) :
  concat (splitWs_go inWs cur s) = cur ++ s.
Proof.
  revert inWs cur. induction s as [|c t IH]; intros inWs cur; simpl.
  - destruct inWs; simpl; rewrite ?app_nil_r; reflexivity.
  - destruct (Bool.eqb (isWhiteSpace c) inWs).
    + rewrite IH, <- app_assoc. reflexivity.
    + simpl. rewrite IH. reflexivity.
Qed.

Lemma richTokens_text size defaultFont text :
  concat (map seg_text (richTokens W size defaultFont text))
  = concat (map cleanText (boldSegments text)).
Proof.
  unfold richTokens. induction (boldSegments text) as [|seg segs IH].
  - reflexivity.
  - cbn [flat_map map concat]. rewrite map_app, concat_app, IH. f_equal.
    unfold segmentTokens. rewrite map_map. cbn [seg_text]. rewrite map_id.
    apply (splitWs_go_concat false []).
Qed.

Lemma allOps_append st ops y :
  allOps {| earlier := earlier st; page := page st ++ ops; currentY := y |}
  = allOps st ++ ops.
Proof.
  unfold allOps, pages. simpl. rewrite !concat_app. simpl.
  rewrite !app_nil_r, app_assoc. reflexivity.
Qed.

Lemma allOps_breakIfLow st : allOps (breakIfLow st) = allOps st.
Proof.
  unfold breakIfLow. destruct (Qltb (currentY st) (margin + 20)); [|reflexivity].
  unfold allOps, pages, newPage. simpl. rewrite !concat_app. simpl.
  rewrite !app_nil_r. reflexivity.
Qed.

Lemma richLineOps_text size defaultFont color y x line :
  map opText (richLineOps size defaultFont color y x line) = map seg_text line.
Proof.
  revert x. induction line as [|seg line IH]; intros x; simpl; [reflexivity|].
  rewrite IH. reflexivity.
Qed.

Lemma allText_placeLine size defaultFont color align st line :
  allText (placeLine size defaultFont color align st line)
  = allText st ++ concat (map seg_text line).
Proof.
  rewrite placeLine_ops. cbv zeta. unfold allText.
  rewrite allOps_append, allOps_breakIfLow, map_app, concat_app, richLineOps_text.
  reflexivity.
Qed.

Lemma allText_placeLines size defaultFont color align lines st :
  allText (fold_left (placeLine size defaultFont color align) lines st)
  = allText st ++ concat (map seg_text (concat lines)).
Proof.
  revert st. induction lines as [|l lines IH]; intros st; cbn [fold_left].
  - simpl. rewrite app_nil_r. reflexivity.
  - rewrite IH, allText_placeLine. simpl.
    rewrite map_app, concat_app, app_assoc. reflexivity.
Qed.

Lemma allText_draw op st : allText (draw op st) = allText st ++ opText op.
Proof.
  unfold draw, allText. rewrite allOps_append, map_app, concat_app. simpl.
  rewrite app_nil_r. reflexivity.
Qed.

Lemma allText_drawLineWords lineWords st :
  allText (drawLineWords W lineWords st)
  = allText st ++ concat (map fst lineWords).
Proof.
  unfold drawLineWords. generalize bulletMargin as cX. revert st.
  induction lineWords as [|lw lineWords IH]; intros st cX; cbn [fold_left fst].
  - simpl. rewrite app_nil_r. reflexivity.
  - rewrite IH, allText_draw. simpl. rewrite <- app_assoc. reflexivity.
Qed.

Lemma map_fst_lineWord (l : list Seg) : map fst (map lineWord l) = map seg_text l.
Proof. rewrite map_map. reflexivity. Qed.

Lemma allText_flushBulletLines ls st :
  allText (fold_left (flushBulletLine W) ls st)
  = allText st ++ concat (map seg_text (concat ls)).
Proof.
  revert st. induction ls as [|l ls IH]; intros st; cbn [fold_left].
  - simpl. rewrite app_nil_r. reflexivity.
  - rewrite IH. unfold flushBulletLine, allText at 1.
    rewrite allOps_breakIfLow.
    change (concat (map opText (allOps (moveDown (bulletSize * 1.5)
                                          (drawLineWords W (map lineWord l) st)))))
      with (allText (drawLineWords W (map lineWord l) st)).
    rewrite allText_drawLineWords, map_fst_lineWord. simpl.
    rewrite map_app, concat_app, app_assoc. reflexivity.
Qed.

Lemma concat_removelast_last {A : Type} (l : list (list A)) :
  concat (removelast l) ++ last l [] = concat l.
Proof.
  destruct l as [|x l]; [reflexivity|].
  rewrite (app_removelast_last [] (l := x :: l)) at 3 by discriminate.
  rewrite concat_app. simpl. rewrite app_nil_r. reflexivity.
Qed.

(** X6. No text is lost at a wrap or at a page break. The texts of the runs
    [drawRichText] adds, put end to end, are the texts of the segments of
    its input, each without its pair of bold markers when it has one; the
    bullet branch adds the glyph and then, the same way, the text that
    follows the marker of the line. A text none of whose segments is taken
    for a bold one is drawn as it is. *)
Theorem drawn_text_is_the_input_text (text line : jsstring)
  (options : Options) (st : Layout) :
  allText (drawRichText W text options st)
  = allText st ++ concat (map cleanText (boldSegments text))
  /\ allText (drawBullet W line st)
     = allText st ++ bulletGlyph
       ++ concat (map cleanText (boldSegments (substring 2 line)))
  /\ (Forall (fun seg => isBoldSegment seg = false) (boldSegments text) ->
      allText (drawRichText W text options st) = allText st ++ text).
Proof.
  assert (H1 : allText (drawRichText W text options st)
               = allText st ++ concat (map cleanText (boldSegments text))).
  { unfold drawRichText. rewrite wrapSegments_tokens.
    match goal with
    | |- context [wrapTokens ?m (richTokens W ?s ?f text)] =>
        pose proof (wrapTokens_concat m (richTokens W s f text)) as Hc;
        pose proof (richTokens_text s f text) as Ht;
        destruct (wrapTokens m (richTokens W s f text)) as [lines cur]
    end.
    cbn [fst] in Hc.
    change (allText (moveDown ?d ?s)) with (allText s).
    rewrite allText_placeLines, Hc, Ht. reflexivity. }
  split; [exact H1|]. split.
  - rewrite drawBullet_lines. unfold placeBulletLines.
    change (allText (moveDown ?d ?s)) with (allText s).
    rewrite allText_drawLineWords, allText_flushBulletLines, map_fst_lineWord.
    rewrite <- app_assoc, <- concat_app, <- map_app, concat_removelast_last.
    unfold bulletLines. rewrite wrapTokens_concat, richTokens_text.
    rewrite allText_draw. simpl opText. rewrite <- app_assoc. reflexivity.
  - intros Hreg. rewrite H1. f_equal. clear H1.
    rewrite <- (boldSegments_concat text) at 2.
    induction (boldSegments text) as [|seg segs IH]; [reflexivity|].
    inversion Hreg as [|? ? Hs Hrest]; subst. simpl.
    unfold cleanText at 1. rewrite Hs, (IH Hrest). reflexivity.
Qed.

End AppendOnly.

(* ================================================================== *)
(** * The rule under a section header *)

Section HeaderRule.
Local Open Scope Q_scope.
Variable W : Font -> jsstring -> Q -> Q.

Lemma startsWith_app (p s : jsstring) :
  startsWith s p = true -> s = p ++ skipn (List.length p) s.
Proof.
  revert s. induction p as [|x p IH]; intros s; [reflexivity|].
  destruct s as [|y s]; cbn [startsWith]; [discriminate|].
  intros H. apply andb_true_iff in H. destruct H as [H1 H2].
  apply N.eqb_eq in H1. subst y. simpl. f_equal. apply IH, H2.
Qed.

Lemma removeFirst_prefix (p s : jsstring) :
  startsWith s p = true -> removeFirst p s = skipn (List.length p) s.
Proof.
  intros H. destruct s; simpl; rewrite H; reflexivity.
Qed.

Lemma trimStart_head (s : jsstring) (c : char) (t : jsstring) :
  trimStart s = c :: t -> isWhiteSpace c = false.
Proof.
  induction s as [|x s IH]; simpl; [discriminate|].
  destruct (isWhiteSpace x) eqn:E; [exact IH|].
  intros H. injection H as <- _. exact E.
Qed.

(** A trimmed text does not end with white space. *)
Lemma trim_last (s a : jsstring) (c : char) :
  trim s = a ++ [c] -> isWhiteSpace c = false.
Proof.
  unfold trim, trimEnd. intros H.
  apply (f_equal (@rev char)) in H. rewrite rev_involutive, rev_app_distr in H.
  simpl in H. apply (trimStart_head _ _ _ H).
Qed.

(** What follows the marker of a section header is not empty. *)
Lemma sectionTitle_nonempty (raw : jsstring) :
  startsWith (trim raw) sectionMark = true ->
  removeFirst sectionMark (trim raw) <> [].
Proof.
  intros H. rewrite (removeFirst_prefix _ _ H).
  pose proof (startsWith_app _ _ H) as E.
  intros Hnil. rewrite Hnil in E. simpl in E.
  apply (trim_last raw (lit "##") 32%N) in E. discriminate E.
Qed.

Lemma splitWs_go_nonempty inWs cur s : splitWs_go inWs cur s <> [].
Proof.
  revert inWs cur. induction s as [|c t IH]; intros inWs cur; simpl.
  - destruct inWs; discriminate.
  - destruct (Bool.eqb (isWhiteSpace c) inWs); [apply IH | discriminate].
Qed.

Lemma richTokens_nonempty size defaultFont text :
  text <> [] -> richTokens W size defaultFont text <> [].
Proof.
  intros Hne. unfold richTokens.
  pose proof (boldSegments_concat text) as Hc.
  destruct (boldSegments text) as [|seg segs].
  - simpl in Hc. congruence.
  - cbn [flat_map]. unfold segmentTokens.
    pose proof (splitWs_go_nonempty false [] (cleanText seg)) as Hs.
    unfold splitWs. destruct (splitWs_go false [] (cleanText seg));
      [contradiction | discriminate].
Qed.

(** The last wrapped line ends with the last token. *)
Lemma wrapTokens_last maxWidth (tokens : list Seg) (tok : Seg) :
  exists init pre,
    fst (wrapTokens maxWidth (tokens ++ [tok])) = init ++ [pre ++ [tok]].
Proof.
  unfold wrapTokens. rewrite fold_left_app. cbn [fold_left].
  destruct (fold_wrapWord_inv maxWidth tokens _ (wrapInv_start maxWidth))
    as (init & l & E & _).
  destruct (fold_left (wrapWord maxWidth) tokens ([[]], 0)) as [lines cur].
  simpl in E. subst lines. rewrite wrapWord_snoc.
  destruct (Qltb maxWidth (cur + seg_width tok) && nonBlank (seg_text tok)).
  - exists (init ++ [l]), []. reflexivity.
  - exists init, l. reflexivity.
Qed.

Lemma richLineOps_snoc size defaultFont color y x pre tok :
  exists x',
    richLineOps size defaultFont color y x (pre ++ [tok])
    = richLineOps size defaultFont color y x pre
      ++ [DrawText (seg_text tok) x' y size
            (if seg_isBold tok then HelveticaBold else defaultFont)
            (Some color)].
Proof.
  revert x. induction pre as [|s pre IH]; intros x; simpl.
  - exists x. reflexivity.
  - destruct (IH (x + seg_width s)) as (x' & E). exists x'. rewrite E.
    reflexivity.
Qed.

(** The last run [drawRichText] draws for a text that is not empty, and
    the cursor it leaves. *)
Lemma drawRichText_last_run (text : jsstring) (size : Q) (defaultFont : Font)
  (color : Color) (align : option Align) (st : Layout) :
  text <> [] -> ~ size == 0 ->
  exists ops word x y, exists isBold : bool,
    page (drawRichText W text
            (mkOptions (Some size) (Some defaultFont) (Some color) align) st)
    = ops ++ [DrawText word x y size
                (if isBold then HelveticaBold else defaultFont) (Some color)]
    /\ currentY (drawRichText W text
                   (mkOptions (Some size) (Some defaultFont) (Some color) align) st)
       = y - size * 1.5 - size * 0.4.
Proof.
  intros Hne Hs. unfold drawRichText. cbn [opt_size opt_defaultFont opt_color].
  assert (Hq : Qeq_bool size 0 = false).
  { destruct (Qeq_bool size 0) eqn:E; [|reflexivity].
    apply Qeq_bool_iff in E. contradiction. }
  rewrite Hq, wrapSegments_tokens.
  pose proof (richTokens_nonempty size defaultFont text Hne) as Ht.
  destruct (exists_last Ht) as (toks & tok & E). rewrite E.
  match goal with
  | |- context [wrapTokens ?m (toks ++ [tok])] =>
      destruct (wrapTokens_last m toks tok) as (init & pre & El);
      destruct (wrapTokens m (toks ++ [tok])) as [lines cur]
  end.
  cbn [fst] in El. subst lines. rewrite fold_left_app. cbn [fold_left].
  rewrite placeLine_ops. cbv zeta.
  match goal with
  | |- context [richLineOps size defaultFont color ?y ?x (pre ++ [tok])] =>
      destruct (richLineOps_snoc size defaultFont color y x pre tok) as (x' & Eo);
      rewrite Eo
  end.
  eexists _, (seg_text tok), x', _, (seg_isBold tok). cbn [page currentY moveDown].
  split; [rewrite app_assoc; reflexivity | reflexivity].
Qed.

(** X7. For every section header the loop ends by drawing the rule on the
    page that holds the last run of the header, right after that run: from
    the left margin to the right margin, 1 point thick, 8.8 points under
    the baseline of that run. The cursor is left 20 points under the
    rule. *)
Theorem section_rule_under_header (lines : list jsstring) (i : nat)
  (st : Layout) :
  startsWith (trim (nth i lines [])) sectionMark = true ->
  exists ops word x y r,
    page (renderLine W lines i st)
    = ops ++ [DrawText word x y 12 HelveticaBold (Some (rgb 0.1 0.2 0.4));
              DrawLine margin r (width - margin) r 1 (rgb 0.8 0.8 0.8)]
    /\ r == y - 8.8
    /\ currentY (renderLine W lines i st) == r - 20.
Proof.
  intros H. unfold renderLine. cbv zeta.
  pose proof (sectionTitle_nonempty _ H) as Hne.
  pose proof (startsWith_app _ _ H) as E.
  assert (Hnb : isEmpty (trim (nth i lines [])) = false)
    by (rewrite E; reflexivity).
  assert (Hnt : startsWith (trim (nth i lines [])) titleMark = false)
    by (rewrite E; reflexivity).
  rewrite Hnb, Hnt, H.
  match goal with
  | |- context [drawRichText W ?t ?o ?s] =>
      destruct (drawRichText_last_run t 12 HelveticaBold (rgb 0.1 0.2 0.4)
                  None s Hne) as (ops & word & x & y & isBold & Ep & Ec);
      [vm_compute; discriminate|]
  end.
  exists ops, word, x, y. eexists.
  cbn [page currentY moveDown draw]. rewrite Ep, Ec.
  split; [|split].
  - rewrite <- app_assoc. destruct isBold; reflexivity.
  - lra.
  - lra.
Qed.

End HeaderRule.

(** X7 at the header of the experience section. *)
Lemma section_rule_under_header_witness :
  exists ops word x y r,
    page (renderLine fixedPitch [lit "## Experience"] 0 initialLayout)
    = ops ++ [DrawText word x y 12 HelveticaBold (Some (rgb 0.1 0.2 0.4));
              DrawLine margin r (width - margin) r 1 (rgb 0.8 0.8 0.8)]
    /\ (r == y - 8.8)%Q.
Proof.
  destruct (section_rule_under_header fixedPitch [lit "## Experience"] 0
              initialLayout) as (ops & word & x & y & r & H1 & H2 & _).
  - reflexivity.
  - exists ops, word, x, y, r. split; assumption.
Defined.

(* ================================================================== *)
(** * The right margin in the bullet branch *)

Section BulletRightMargin.
Local Open Scope Q_scope.
Variable W : Font -> jsstring -> Q -> Q.




End BulletRightMargin.


(* ================================================================== *)
(** * The handlers with the service behind them *)

Import Views.

Section OptimizeOutcomes.
Variable JSON_parse : jsstring -> option json.
Variable syntaxErrorMessage : jsstring -> jsstring.
Variable nullReadMessage : jsstring.
(** What the generation call does for a request. *)
Variable api : ResumeData -> ApiOutcome.

Lemma orElse_nonempty (a b : jsstring) : b <> [] -> orElse a b <> [].
Proof.
  intros Hb. unfold orElse. destruct a; simpl; [exact Hb | discriminate].
Qed.

Lemma optimizeResume_settles (outcome : ApiOutcome) :
  (exists v, optimizeResume JSON_parse outcome = Resolved v)
  \/ optimizeResume JSON_parse outcome
     = Rejected (lit "Failed to optimize resume. Please check your input and try again.").
Proof.
  unfold optimizeResume. destruct outcome as [m | text]; [right; reflexivity|].
  destruct (JSON_parse _) as [v|]; [left; exists v; reflexivity | right; reflexivity].
Qed.

(** X9. [handleOptimize] of src/App.tsx over [optimizeResume] of
    src/services/geminiService.ts, started with a string in the editor,
    ends in one of four ways and no other: the blank-form message with
    nothing else written; the answer stored, copied to the editor and the
    preview opened with no error; the one message of the service with
    editor, result and step kept; or, when the parsed answer is [null],
    the message of the TypeError with the result set to [null] and the
    editor kept. The fallback text of [handleOptimize] is shown in the
    last case only, and only when the TypeError has an empty message.
    Outside the first case [loading] ends false. *)
Theorem handleOptimize_outcomes (st : AppState) (text : jsstring) :
  inputContent st = str text ->
  let service := fun data => optimizeResume JSON_parse (api data) in
  let st' := fst (handleOptimize service nullReadMessage st) in
  st' = setError (Some (lit "Resume text and target job title are required.")) st
  \/ (exists optimized c,
        service (requestOf st) = Resolved optimized
        /\ optimizedContentOf (Value optimized) = Some c
        /\ st' = setLoading false
                   (setStep Step2
                      (setInputContent c (setResult optimized (setError None st)))))
  \/ (st' = setLoading false
              (setError
                 (Some (lit "Failed to optimize resume. Please check your input and try again."))
                 st))
  \/ (service (requestOf st) = Resolved JNull
      /\ st' = setLoading false
                 (setError
                    (Some (orElse nullReadMessage
                             (lit "Optimization failed. Please try again.")))
                    (setResult JNull st))).
Proof.
  intros Hc. cbv zeta. unfold handleOptimize.
  assert (Ht : trimOf (inputContent st) = Some (trim text))
    by (rewrite Hc; reflexivity).
  rewrite Ht.
  destruct (isEmpty (trim text) || isEmpty (trim (targetTitle st)));
    [left; reflexivity | right].
  change (mkResumeData _ _ _ _ _) with (requestOf st).
  destruct (optimizeResume_settles (api (requestOf st))) as [[v Hv] | Hr].
  - rewrite Hv. destruct (optimizedContentOf (Value v)) as [c|] eqn:Ec.
    + left. exists v, c. repeat split. assumption.
    + right. right. assert (v = JNull) as ->.
      { destruct v; try discriminate Ec; [reflexivity|].
        simpl in Ec. destruct (lookup _ _); discriminate Ec. }
      split; reflexivity.
  - rewrite Hr. right. left. reflexivity.
Qed.

(** X10. The pair of src/unnamed/part_001: [handleOptimize] over the
    [optimizeResume] of that file never writes the editor, and its end
    state is fixed by the form and by what the generation call did. A
    blank editor gives the first form message, a blank title under a
    filled editor the second. Past the two checks, a response text that
    is not empty and that [JSON.parse] reads is stored as parsed and the
    preview opened with no error; in every other case the message built
    by the service is shown around a reason that is not empty: the
    message of what the call threw, the missing response text, or the
    message of the syntax error. The fallback text of the handler is never
    shown. *)
Theorem handleOptimize_part001_outcomes (st : AppState) (text : jsstring) :
  inputContent st = str text ->
  let service :=
    fun data => optimizeResume_part001 JSON_parse syntaxErrorMessage (api data) in
  let st' := fst (handleOptimize_part001 service st) in
  inputContent st' = inputContent st
  /\ ((trim text = []
       /\ st' = setError (Some (lit "Please provide your current resume content.")) st)
      \/ (trim text <> [] /\ trim (targetTitle st) = []
          /\ st' = setError (Some (lit "Please specify a target job title.")) st)
      \/ (trim text <> [] /\ trim (targetTitle st) <> []
          /\ exists answer optimized,
               api (requestOf_part001 st) = ApiResponds (Some answer)
               /\ answer <> []
               /\ JSON_parse answer = Some optimized
               /\ st' = setLoading false
                          (setStep Step2 (setResult optimized (setError None st))))
      \/ (trim text <> [] /\ trim (targetTitle st) <> []
          /\ exists reason,
               reason <> []
               /\ ((exists thrown,
                      api (requestOf_part001 st) = ApiThrows thrown
                      /\ reason = orElse thrown (lit "Unknown error"))
                   \/ ((api (requestOf_part001 st) = ApiResponds None
                        \/ api (requestOf_part001 st) = ApiResponds (Some []))
                       /\ reason = lit "No response text received from AI.")
                   \/ (exists answer,
                         api (requestOf_part001 st) = ApiResponds (Some answer)
                         /\ answer <> []
                         /\ JSON_parse answer = None
                         /\ reason
                            = orElse (syntaxErrorMessage answer) (lit "Unknown error")))
               /\ st' = setLoading false
                          (setError
                             (Some (lit "Optimization failed: " ++ reason
                                      ++ lit ". Please try again."))
                             st))).
Proof.
  intros Hc. cbv zeta. unfold handleOptimize_part001.
  assert (Ht : trimOf (inputContent st) = Some (trim text))
    by (rewrite Hc; reflexivity).
  rewrite Ht.
  destruct (trim text) as [|c r] eqn:Etext; cbn [isEmpty].
  { split; [reflexivity | left; split; reflexivity]. }
  destruct (trim (targetTitle st)) as [|c' r'] eqn:Etitle; cbn [isEmpty].
  { split; [reflexivity | right; left].
    split; [discriminate | split; reflexivity]. }
  change (mkResumeData _ _ _ _ _) with (requestOf_part001 st).
  unfold optimizeResume_part001.
  destruct (api (requestOf_part001 st)) as [thrown | [answer|]] eqn:Eapi.
  - split; [reflexivity|]. right; right; right.
    split; [discriminate|]. split; [discriminate|].
    exists (orElse thrown (lit "Unknown error")).
    split; [apply orElse_nonempty; discriminate|].
    split; [left; exists thrown; split; reflexivity | reflexivity].
  - destruct answer as [|a answer]; cbn [isEmpty].
    + split; [reflexivity|]. right; right; right.
      split; [discriminate|]. split; [discriminate|].
      exists (lit "No response text received from AI.").
      split; [discriminate|].
      split; [right; left; split; [right; reflexivity | reflexivity]
             | reflexivity].
    + destruct (JSON_parse (a :: answer)) as [optimized|] eqn:Ep.
      * split; [reflexivity|]. right; right; left.
        split; [discriminate|]. split; [discriminate|].
        exists (a :: answer), optimized.
        split; [reflexivity|]. split; [discriminate|].
        split; [exact Ep | reflexivity].
      * split; [reflexivity|]. right; right; right.
        split; [discriminate|]. split; [discriminate|].
        exists (orElse (syntaxErrorMessage (a :: answer)) (lit "Unknown error")).
        split; [apply orElse_nonempty; discriminate|].
        split; [|reflexivity].
        right; right. exists (a :: answer).
        split; [reflexivity|]. split; [discriminate|].
        split; [exact Ep | reflexivity].
  - split; [reflexivity|]. right; right; right.
    split; [discriminate|]. split; [discriminate|].
    exists (lit "No response text received from AI.").
    split; [discriminate|].
    split; [right; left; split; [left; reflexivity | reflexivity]
           | reflexivity].
Qed.

End OptimizeOutcomes.

Section OptimizeThenExport.
Variable JSON_parse : jsstring -> option json.
Variable nullReadMessage : jsstring.
Variable api : ResumeData -> ApiOutcome.
Variable W : Font -> jsstring -> Q -> Q.

(** X11. From the answer of the model to the saved document: when the
    form is filled and the generation call answers with a text that
    [JSON.parse] reads as an object whose [optimizedContent] is a string
    that is not blank, [handleOptimize] opens the preview with that string
    in the editor and no error, and a download started then lays out
    exactly that string. *)
Theorem optimized_content_is_what_is_exported (st : AppState)
  (text answer optimizedContent : jsstring) (members : list (jsstring * json)) :
  inputContent st = str text ->
  trim text <> [] ->
  trim (targetTitle st) <> [] ->
  api (requestOf st) = ApiResponds (Some answer) ->
  answer <> [] ->
  JSON_parse answer = Some (JObject members) ->
  lookup (lit "optimizedContent") members = Some (JString optimizedContent) ->
  trim optimizedContent <> [] ->
  let service := fun data => optimizeResume JSON_parse (api data) in
  let st' := fst (handleOptimize service nullReadMessage st) in
  step st' = Step2
  /\ error st' = None
  /\ loading st' = false
  /\ inputContent st' = str optimizedContent
  /\ result st' = JObject members
  /\ contentToExport st' = str optimizedContent
  /\ handleDownloadPDF W true st'
     = (setDownloading false st',
        Saved (pages (layoutPass W optimizedContent)), Returned).
Proof.
  intros Hc Ht Htitle Hapi Hans Hparse Hlook Hopt. cbv zeta.
  unfold handleOptimize.
  assert (Htr : trimOf (inputContent st) = Some (trim text))
    by (rewrite Hc; reflexivity).
  rewrite Htr.
  destruct (trim text) as [|c r] eqn:Et; [contradiction|].
  destruct (trim (targetTitle st)) as [|c' r'] eqn:Ett; [contradiction|].
  cbn [isEmpty orb].
  change (mkResumeData _ _ _ _ _) with (requestOf st).
  rewrite Hapi. unfold optimizeResume, orElse.
  destruct answer as [|a answer]; [contradiction|]. cbn [isEmpty].
  rewrite Hparse. cbn [optimizedContentOf]. rewrite Hlook.
  cbn [fst]. repeat split.
  - unfold contentToExport, optimizedContentOf.
    cbn [step result inputContent setLoading setStep setInputContent setResult
         setError].
    rewrite Hlook.
    destruct optimizedContent; [contradiction Hopt; reflexivity | reflexivity].
  - unfold handleDownloadPDF, contentToExport, optimizedContentOf.
    cbn [step result inputContent setLoading setStep setInputContent setResult
         setError].
    rewrite Hlook.
    destruct optimizedContent as [|o os]; [contradiction Hopt; reflexivity|].
    cbn [truthy negb isEmpty].
    destruct (trim (o :: os)); [contradiction | reflexivity].
Qed.

End OptimizeThenExport.

(** X11 at a filled form and an answer of one field. *)
Lemma optimized_content_is_what_is_exported_witness :
  let api := fun _ : ResumeData =>
    ApiResponds (Some (lit "{" ++ quoted (lit "optimizedContent") ++ lit ":"
               ++ quoted (lit "# Jane") ++ lit "}")) in
  let service := fun data => optimizeResume Json.parse (api data) in
  contentToExport (fst (handleOptimize service engineNullRead filledForm))
  = str (lit "# Jane").
Proof.
  cbv zeta.
  apply (optimized_content_is_what_is_exported Json.parse engineNullRead
           (fun _ : ResumeData =>
              ApiResponds (Some (lit "{" ++ quoted (lit "optimizedContent") ++ lit ":"
               ++ quoted (lit "# Jane") ++ lit "}")))
           fixedPitch filledForm (lit "# Jane Doe")
           (lit "{" ++ quoted (lit "optimizedContent") ++ lit ":"
               ++ quoted (lit "# Jane") ++ lit "}") (lit "# Jane")
           [(lit "optimizedContent", JString (lit "# Jane"))]);
    try reflexivity; vm_compute; discriminate.
Defined.

(** X9 at a filled form. *)
Lemma handleOptimize_outcomes_witness :
  let api := fun _ : ResumeData => ApiThrows (lit "503") in
  let service := fun data => optimizeResume Json.parse (api data) in
  let st' := fst (handleOptimize service engineNullRead filledForm) in
  st' = setError (Some (lit "Resume text and target job title are required."))
          filledForm
  \/ (exists optimized c,
        service (requestOf filledForm) = Resolved optimized
        /\ optimizedContentOf (Value optimized) = Some c
        /\ st' = setLoading false
                   (setStep Step2
                      (setInputContent c
                         (setResult optimized (setError None filledForm)))))
  \/ (st' = setLoading false
              (setError
                 (Some (lit "Failed to optimize resume. Please check your input and try again."))
                 filledForm))
  \/ (service (requestOf filledForm) = Resolved JNull
      /\ st' = setLoading false
                 (setError
                    (Some (orElse engineNullRead
                             (lit "Optimization failed. Please try again.")))
                    (setResult JNull filledForm))).
Proof.
  apply (handleOptimize_outcomes Json.parse engineNullRead
           (fun _ : ResumeData => ApiThrows (lit "503")) filledForm
           (lit "# Jane Doe")).
  reflexivity.
Defined.

(** X10 at a filled form. *)
Lemma handleOptimize_part001_outcomes_witness :
  let api := fun _ : ResumeData => ApiResponds None in
  let service :=
    fun data => optimizeResume_part001 Json.parse engineSyntaxError (api data) in
  inputContent (fst (handleOptimize_part001 service filledForm))
  = inputContent filledForm.
Proof.
  cbv zeta.
  apply (handleOptimize_part001_outcomes Json.parse engineSyntaxError
           (fun _ : ResumeData => ApiResponds None) filledForm
           (lit "# Jane Doe")).
  reflexivity.
Defined.

(* ================================================================== *)
(** * View toggle and reset *)

Section ToggleView.

Lemma eqb_eq (a b : jsstring) : eqb a b = true <-> a = b.
Proof.
  revert b. induction a as [|x a IH]; intros [|y b]; simpl;
    try (split; [discriminate | discriminate]); [tauto|].
  rewrite andb_true_iff, N.eqb_eq, IH. split.
  - intros [-> ->]. reflexivity.
  - intros E. injection E as -> ->. auto.
Qed.

Lemma lookup_app (key : jsstring) (a b : list (jsstring * json)) :
  lookup key (a ++ b)
  = match lookup key b with
    | Some v => Some v
    | None => lookup key a
    end.
Proof.
  induction a as [|[k v] a IH]; simpl.
  - destruct (lookup key b); reflexivity.
  - rewrite IH. destruct (lookup key b); reflexivity.
Qed.

Lemma lookup_without (key : jsstring) (members : list (jsstring * json)) :
  lookup key (filter (fun kv => negb (eqb (fst kv) key)) members) = None.
Proof.
  induction members as [|[k v] members IH]; simpl; [reflexivity|].
  destruct (eqb k key) eqn:E; simpl; [exact IH|].
  rewrite IH, E. reflexivity.
Qed.

Lemma lookup_other (key other : jsstring) (members : list (jsstring * json)) :
  other <> key ->
  lookup other (filter (fun kv => negb (eqb (fst kv) key)) members)
  = lookup other members.
Proof.
  intros Hne. induction members as [|[k v] members IH]; simpl; [reflexivity|].
  destruct (eqb k key) eqn:E; simpl.
  - rewrite IH. destruct (lookup other members); [reflexivity|].
    destruct (eqb k other) eqn:E'; [|reflexivity].
    apply eqb_eq in E, E'. congruence.
  - rewrite IH. reflexivity.
Qed.

Lemma withMember_reads_back (key : jsstring) (v : jsvalue)
  (members : list (jsstring * json)) :
  match lookup key (withMember key v members) with
  | Some x => Value x
  | None => Undefined
  end = v.
Proof.
  unfold withMember. destruct v as [|x].
  - rewrite lookup_without. reflexivity.
  - rewrite lookup_app. simpl.
    assert (E : eqb key key = true) by (apply eqb_eq; reflexivity).
    rewrite E. reflexivity.
Qed.

Lemma withMember_keeps_others (key other : jsstring) (v : jsvalue)
  (members : list (jsstring * json)) :
  other <> key ->
  lookup other (withMember key v members) = lookup other members.
Proof.
  intros Hne. unfold withMember. destruct v as [|x].
  - apply lookup_other, Hne.
  - rewrite lookup_app. simpl.
    destruct (eqb key other) eqn:E.
    + apply eqb_eq in E. congruence.
    + apply lookup_other, Hne.
Qed.

(** X12. Going back from the editor to the preview: with a result in
    store, [toggleView] opens step 2 with the editor untouched and the
    [optimizedContent] of the stored result replaced by the editor
    content, so that the download exports what the editor holds; the other
    members of the result read as before. *)
Theorem toggleView_syncs_preview_with_editor (st : AppState) :
  step st = Step1 ->
  truthy (Value (result st)) = true ->
  let st' := toggleView st in
  step st' = Step2
  /\ inputContent st' = inputContent st
  /\ optimizedContentOf (Value (result st')) = Some (inputContent st)
  /\ contentToExport st' = inputContent st
  /\ (forall members other,
        result st = JObject members ->
        other <> lit "optimizedContent" ->
        exists members',
          result st' = JObject members'
          /\ lookup other members' = lookup other members).
Proof.
  intros Hs Hr. cbv zeta. unfold toggleView. rewrite Hs, Hr.
  assert (Hread :
            optimizedContentOf
              (Value (JObject (withMember (lit "optimizedContent") (inputContent st)
                                 (spreadMembers (result st)))))
            = Some (inputContent st)).
  { unfold optimizedContentOf.
    pose proof (withMember_reads_back (lit "optimizedContent") (inputContent st)
                  (spreadMembers (result st))) as H.
    destruct (lookup _ _); rewrite <- H; reflexivity. }
  repeat split.
  - exact Hread.
  - unfold contentToExport.
    cbn [step result inputContent setStep setResult]. rewrite Hread.
    destruct (truthy (inputContent st)); reflexivity.
  - intros members other Hm Hne. eexists. split; [reflexivity|].
    rewrite Hm. apply withMember_keeps_others, Hne.
Qed.

(** X13. From the preview [toggleView] only opens the editor, and a second
    call brings the preview back; after the two calls the download exports
    the editor content. *)
Theorem toggleView_twice_from_preview (st : AppState) :
  step st = Step2 ->
  truthy (Value (result st)) = true ->
  toggleView st = setStep Step1 st
  /\ step (toggleView (toggleView st)) = Step2
  /\ inputContent (toggleView (toggleView st)) = inputContent st
  /\ contentToExport (toggleView (toggleView st)) = inputContent st.
Proof.
  intros Hs Hr.
  assert (E : toggleView st = setStep Step1 st)
    by (unfold toggleView; rewrite Hs; reflexivity).
  rewrite E. split; [reflexivity|].
  unfold toggleView. cbn [step result inputContent setStep]. rewrite Hr.
  assert (Hread :
            optimizedContentOf
              (Value (JObject (withMember (lit "optimizedContent") (inputContent st)
                                 (spreadMembers (result st)))))
            = Some (inputContent st)).
  { unfold optimizedContentOf.
    pose proof (withMember_reads_back (lit "optimizedContent") (inputContent st)
                  (spreadMembers (result st))) as H.
    destruct (lookup _ _); rewrite <- H; reflexivity. }
  repeat split.
  unfold contentToExport.
  cbn [step result inputContent setStep setResult]. rewrite Hread.
  destruct (truthy (inputContent st)); reflexivity.
Qed.

End ToggleView.

Section Reset.
Variable optimizeResume : ResumeData -> Settled json.

(** X14. In the variant of src/unnamed/part_001, [handleReset] after
    [handleOptimize] gives back the form as it was before the request,
    whatever the service answered: started at step 1 with no result, no
    error and no request running, the two calls change no state cell. *)
Theorem reset_undoes_optimize_part001 (st : AppState) :
  step st = Step1 -> result st = JNull -> error st = None ->
  loading st = false ->
  handleReset (fst (handleOptimize_part001 optimizeResume st)) = st.
Proof.
  intros Hs Hr He Hl. unfold handleOptimize_part001.
  destruct st as [s l fp d e ic tt jd sen ctx r]. simpl in Hs, Hr, He, Hl.
  subst s r e l.
  cbn [step loading fileParsing downloading error inputContent targetTitle
       jobDescription seniority context result].
  destruct (trimOf ic) as [t|]; [|reflexivity].
  destruct (isEmpty t); [reflexivity|].
  destruct (isEmpty (trim tt)); [reflexivity|].
  cbn [setError setLoading step loading fileParsing downloading error
       inputContent targetTitle jobDescription seniority context result].
  destruct (optimizeResume _); reflexivity.
Qed.

End Reset.

(** X12 at a stored result of two members and an edited text. *)
Lemma toggleView_syncs_preview_with_editor_witness :
  let st := mkApp Step1 false false false None (str (lit "# Jane D."))
              (lit "Engineer") [] MID []
              (JObject [(lit "optimizedContent", JString (lit "# Jane"));
                        (lit "atsScore", JNumber (lit "80"))]) in
  contentToExport (toggleView st) = str (lit "# Jane D.").
Proof.
  cbv zeta.
  apply (toggleView_syncs_preview_with_editor
           (mkApp Step1 false false false None (str (lit "# Jane D."))
              (lit "Engineer") [] MID []
              (JObject [(lit "optimizedContent", JString (lit "# Jane"));
                        (lit "atsScore", JNumber (lit "80"))])));
    reflexivity.
Defined.

(** X13 at the preview of a stored result. *)
Lemma toggleView_twice_from_preview_witness :
  let st := mkApp Step2 false false false None (str (lit "# Jane D."))
              (lit "Engineer") [] MID []
              (JObject [(lit "optimizedContent", JString (lit "# Jane"))]) in
  contentToExport (toggleView (toggleView st)) = str (lit "# Jane D.").
Proof.
  cbv zeta.
  apply (toggleView_twice_from_preview
           (mkApp Step2 false false false None (str (lit "# Jane D."))
              (lit "Engineer") [] MID []
              (JObject [(lit "optimizedContent", JString (lit "# Jane"))])));
    reflexivity.
Defined.

(** X14 at a filled form and a service that fails. *)
Lemma reset_undoes_optimize_part001_witness :
  handleReset
    (fst (handleOptimize_part001
            (fun _ : ResumeData => Rejected (lit "quota")) filledForm))
  = filledForm.
Proof.
  apply (reset_undoes_optimize_part001
           (fun _ : ResumeData => Rejected (lit "quota")) filledForm);
    reflexivity.
Defined.

(* ================================================================== *)
(** * Uploads and the text taken from a PDF *)

Section PdfText.

Lemma extractTextFromPDF_from (pageItems : list (list jsstring)) (acc : jsstring) :
  fold_left (fun fullText items => fullText ++ (join [SPACE] items ++ [LF]))
    pageItems acc
  = acc ++ concat (map (fun items => join [SPACE] items ++ [LF]) pageItems).
Proof.
  revert acc. induction pageItems as [|p ps IH]; intros acc; simpl.
  - rewrite app_nil_r. reflexivity.
  - rewrite IH, <- app_assoc. reflexivity.
Qed.

Lemma extractTextFromPDF_cons (items : list jsstring)
  (pageItems : list (list jsstring)) :
  extractTextFromPDF (items :: pageItems)
  = join [SPACE] items ++ LF :: extractTextFromPDF pageItems.
Proof.
  unfold extractTextFromPDF. rewrite !extractTextFromPDF_from. simpl.
  rewrite <- app_assoc. reflexivity.
Qed.

Lemma splitOn_line (line rest : jsstring) :
  ~ In LF line -> splitOn LF (line ++ LF :: rest) = line :: splitOn LF rest.
Proof.
  induction line as [|c line IH]; intros Hnot.
  - reflexivity.
  - cbn [app splitOn].
    destruct (c =? LF)%N eqn:E.
    + apply N.eqb_eq in E. exfalso. apply Hnot. left. exact E.
    + rewrite IH; [reflexivity|]. intros Hin. apply Hnot. right. exact Hin.
Qed.

Lemma join_no_LF (items : list jsstring) :
  Forall (fun item => ~ In LF item) items -> ~ In LF (join [SPACE] items).
Proof.
  induction 1 as [|item items Hitem Hitems IH]; [intros []|].
  cbn [join]. destruct items as [|item' items]; [exact Hitem|].
  intros Hin. apply in_app_or in Hin. destruct Hin as [Hin | Hin]; [auto|].
  destruct Hin as [E | Hin]; [discriminate E | auto].
Qed.

(** X15. The text [extractTextFromPDF] builds has one line per page: when
    no text item holds a line feed, splitting the text at the line feeds
    gives back, page by page, the items of the page joined by single
    spaces, followed by one empty piece for the line feed that ends the
    last page. *)
Theorem pdf_text_has_one_line_per_page (pageItems : list (list jsstring)) :
  Forall (Forall (fun item => ~ In LF item)) pageItems ->
  splitOn LF (extractTextFromPDF pageItems)
  = map (join [SPACE]) pageItems ++ [[]].
Proof.
  induction 1 as [|items pageItems Hitems _ IH]; [reflexivity|].
  rewrite extractTextFromPDF_cons, splitOn_line by (apply join_no_LF, Hitems).
  rewrite IH. reflexivity.
Qed.

Lemma join_blank (items : list jsstring) :
  Forall (Forall (fun c => isWhiteSpace c = true)) items ->
  Forall (fun c => isWhiteSpace c = true) (join [SPACE] items).
Proof.
  induction 1 as [|item items Hitem Hitems IH]; [constructor|].
  cbn [join]. destruct items as [|item' items]; [exact Hitem|].
  apply Forall_app. split; [exact Hitem|].
  constructor; [reflexivity | exact IH].
Qed.

Lemma extractTextFromPDF_blank (pageItems : list (list jsstring)) :
  Forall (Forall (Forall (fun c => isWhiteSpace c = true))) pageItems ->
  Forall (fun c => isWhiteSpace c = true) (extractTextFromPDF pageItems).
Proof.
  induction 1 as [|items pageItems Hitems _ IH]; [constructor|].
  rewrite extractTextFromPDF_cons. apply Forall_app.
  split; [apply join_blank, Hitems|].
  constructor; [reflexivity | exact IH].
Qed.

End PdfText.

Section Uploads.
Variable toLowerCase : jsstring -> jsstring.
Variable extractTextFromPDF : list N -> Extracted.
Variable extractTextFromDOCX : list N -> Extracted.
Variable decode : list N -> jsstring.

(** X16. [handleFileUpload] of src/unnamed/part_001 ends with the parsing
    flag off and in one of two ways: the editor holds a text that is not
    blank and no error is shown, or a message that is not empty is shown
    and the editor is as it was. *)
Theorem upload_part001_accepts_only_text (file : File) (st : AppState) :
  let st' :=
    handleFileUpload_part001 toLowerCase extractTextFromPDF extractTextFromDOCX
      decode (Some file) st in
  fileParsing st' = false
  /\ ((exists t,
         trim t <> []
         /\ st' = setFileParsing false (setInputContent (str t) (setError None st)))
      \/ (exists message,
            message <> []
            /\ st' = setFileParsing false (setError (Some message) st))).
Proof.
  cbv zeta. unfold handleFileUpload_part001. split; [reflexivity|].
  set (extracted :=
         if endsWith (toLowerCase (name file)) (lit ".pdf")
         then extractTextFromPDF (bytes file)
         else if endsWith (toLowerCase (name file)) (lit ".docx")
              then extractTextFromDOCX (bytes file)
              else if endsWith (toLowerCase (name file)) (lit ".txt")
                      || endsWith (toLowerCase (name file)) (lit ".md")
                   then Text (decode (bytes file))
                   else Throws (lit "Unsupported file type. Please upload PDF, DOCX, TXT, or MD.")).
  destruct extracted as [t | message].
  - destruct (trim t) eqn:Et; cbn [isEmpty].
    + right. eexists. split; [|reflexivity]. discriminate.
    + left. exists t. split; [rewrite Et; discriminate | reflexivity].
  - right. eexists. split; [|reflexivity].
    apply orElse_nonempty. discriminate.
Qed.

Section BlankFiles.
Variable optimizeResume : ResumeData -> Settled json.
Variable nullReadMessage : jsstring.
Variable W : Font -> jsstring -> Q -> Q.
Variable pdfLibSucceeds : bool.

(** X17. A text file with nothing but white space in it. src/App.tsx
    takes it: the editor is overwritten with the blank text and no error
    is shown; the request and, in step 1, the download then stop at their
    first check, the request with the form message and without a call of
    the service. The variant of src/unnamed/part_001 refuses the file
    with its own message and keeps the editor. *)
Theorem blank_text_file_handling (file : File) (st : AppState) :
  let fileName := toLowerCase (name file) in
  endsWith fileName (lit ".pdf") = false ->
  endsWith fileName (lit ".docx") = false ->
  endsWith fileName (lit ".txt") = true ->
  trim (decode (bytes file)) = [] ->
  let st1 :=
    handleFileUpload toLowerCase extractTextFromPDF extractTextFromDOCX decode
      (Some file) st in
  st1 = setInputContent (str (decode (bytes file))) (setError None st)
  /\ handleOptimize optimizeResume nullReadMessage st1
     = (setError (Some (lit "Resume text and target job title are required.")) st1,
        Returned)
  /\ (step st = Step1 ->
      handleDownloadPDF W pdfLibSucceeds st1 = (st1, NotStarted, Returned))
  /\ handleFileUpload_part001 toLowerCase extractTextFromPDF extractTextFromDOCX
       decode (Some file) st
     = setFileParsing false
         (setError
            (Some (lit "The file seems to be empty or contains no extractable text."))
            st).
Proof.
  cbv zeta. intros Hpdf Hdocx Htxt Hblank.
  unfold handleFileUpload, handleFileUpload_part001.
  rewrite Hpdf, Hdocx, Htxt. cbn [orb]. rewrite Hblank. cbn [isEmpty].
  split; [reflexivity|]. split; [|split; [|reflexivity]].
  - unfold handleOptimize.
    cbn [inputContent setInputContent setError trimOf str].
    rewrite Hblank. reflexivity.
  - intros Hs. unfold handleDownloadPDF, contentToExport.
    cbn [step inputContent setInputContent setError]. rewrite Hs.
    unfold str at 1. rewrite Hblank. reflexivity.
Qed.

End BlankFiles.

End Uploads.

Section ScannedPdf.
Variable toLowerCase : jsstring -> jsstring.
Variable extractTextFromDOCX : list N -> Extracted.
Variable decode : list N -> jsstring.
(** The text items pdf.js reads from the pages of a document. *)
Variable pageItemsOf : list N -> list (list jsstring).

(** X18. A PDF whose pages carry no text, or white space only, as a
    scanned document does. The loop over its pages builds a blank text,
    one line feed per page at least. src/App.tsx puts that text in the
    editor and shows no error; the variant of src/unnamed/part_001 shows
    its empty-file message and keeps the editor. *)
Theorem pdf_without_text_handling (file : File) (st : AppState) :
  endsWith (toLowerCase (name file)) (lit ".pdf") = true ->
  Forall (Forall (Forall (fun c => isWhiteSpace c = true)))
    (pageItemsOf (bytes file)) ->
  let fromPdf := fun data => Text (Views.extractTextFromPDF (pageItemsOf data)) in
  let text := Views.extractTextFromPDF (pageItemsOf (bytes file)) in
  trim text = []
  /\ List.length (pageItemsOf (bytes file)) <= List.length text
  /\ handleFileUpload toLowerCase fromPdf extractTextFromDOCX decode (Some file) st
     = setInputContent (str text) (setError None st)
  /\ handleFileUpload_part001 toLowerCase fromPdf extractTextFromDOCX decode
       (Some file) st
     = setFileParsing false
         (setError
            (Some (lit "The file seems to be empty or contains no extractable text."))
            st).
Proof.
  intros Hpdf Hblank. cbv zeta.
  pose proof (trim_blank _ (extractTextFromPDF_blank _ Hblank)) as Ht.
  split; [exact Ht|]. split; [|split].
  - clear. induction (pageItemsOf (bytes file)) as [|p ps IH]; [apply le_n|].
    rewrite extractTextFromPDF_cons, length_app. simpl. lia.
  - unfold handleFileUpload. rewrite Hpdf. reflexivity.
  - unfold handleFileUpload_part001. rewrite Hpdf, Ht. reflexivity.
Qed.

End ScannedPdf.

(** X15 at a document of two pages. *)
Lemma pdf_text_has_one_line_per_page_witness :
  splitOn LF (Views.extractTextFromPDF
                [[lit "Jane"; lit "Doe"]; [lit "Engineer"]])
  = [lit "Jane Doe"; lit "Engineer"; []].
Proof.
  apply (pdf_text_has_one_line_per_page
           [[lit "Jane"; lit "Doe"]; [lit "Engineer"]]).
  repeat constructor; vm_compute; intuition discriminate.
Defined.

(** X17 at a file of two spaces. *)
Lemma blank_text_file_handling_witness :
  handleFileUpload_part001 asciiLower noExtraction noExtraction decodeAscii
    (Some (mkFile (lit "cv.TXT") [32; 32]%N)) filledForm
  = setFileParsing false
      (setError
         (Some (lit "The file seems to be empty or contains no extractable text."))
         filledForm).
Proof.
  apply (blank_text_file_handling asciiLower noExtraction noExtraction
           decodeAscii (fun _ : ResumeData => Rejected (lit "quota"))
           engineNullRead fixedPitch true (mkFile (lit "cv.TXT") [32; 32]%N)
           filledForm); reflexivity.
Defined.

(** X18 at a scanned document of two pages. *)
Lemma pdf_without_text_handling_witness :
  handleFileUpload asciiLower (fun _ : list N => Text (Views.extractTextFromPDF [[]; []]))
    noExtraction decodeAscii (Some (mkFile (lit "scan.pdf") [37; 80]%N)) filledForm
  = setInputContent (str [LF; LF]) (setError None filledForm).
Proof.
  apply (pdf_without_text_handling asciiLower noExtraction decodeAscii
           (fun _ : list N => [[]; []]) (mkFile (lit "scan.pdf") [37; 80]%N)
           filledForm).
  - reflexivity.
  - repeat constructor.
Defined.

(* ================================================================== *)
(** * The pieces of [split(/(\s+)/)] *)

Section Tokens.
Variable W : Font -> jsstring -> Q -> Q.

Lemma splitWs_go_pieces (s cur : jsstring) (inWs : bool) :
  Forall (fun c => isWhiteSpace c = inWs) cur ->
  (inWs = false \/ cur <> []) ->
  Forall (fun piece =>
            Forall (fun c => isWhiteSpace c = true) piece
            \/ (piece <> [] /\ Forall (fun c => isWhiteSpace c = false) piece))
    (splitWs_go inWs cur s).
Proof.
  assert (Hpiece : forall (b : bool) (p : jsstring),
             Forall (fun c => isWhiteSpace c = b) p ->
             (b = false \/ p <> []) ->
             Forall (fun c => isWhiteSpace c = true) p
             \/ (p <> [] /\ Forall (fun c => isWhiteSpace c = false) p)).
  { intros [|] p Hp Hne; [left; exact Hp|].
    destruct p as [|c p]; [left; constructor | right].
    split; [discriminate | exact Hp]. }
  revert cur inWs. induction s as [|c t IH]; intros cur inWs Hcur Hne; simpl.
  - destruct inWs.
    + constructor; [left; exact Hcur|]. constructor; [left; constructor | constructor].
    + constructor; [apply (Hpiece false); assumption | constructor].
  - destruct (Bool.eqb (isWhiteSpace c) inWs) eqn:E.
    + apply Bool.eqb_prop in E. apply IH.
      * apply Forall_app. split; [exact Hcur|]. constructor; [exact E | constructor].
      * right. destruct cur; discriminate.
    + constructor; [apply (Hpiece inWs); assumption|].
      apply IH.
      * constructor; [reflexivity | constructor].
      * right. discriminate.
Qed.

Lemma trimStart_word (piece : jsstring) :
  piece <> [] -> Forall (fun c => isWhiteSpace c = false) piece ->
  trimStart piece = piece.
Proof.
  intros Hne H. destruct H as [|c p Hc _]; [contradiction|].
  simpl. rewrite Hc. reflexivity.
Qed.

Lemma nonBlank_word (piece : jsstring) :
  piece <> [] -> Forall (fun c => isWhiteSpace c = false) piece ->
  nonBlank piece = true.
Proof.
  intros Hne H. unfold nonBlank, trim, trimEnd.
  rewrite (trimStart_word piece Hne H).
  rewrite trimStart_word.
  - rewrite rev_involutive. destruct piece; [contradiction | reflexivity].
  - intros E. apply (f_equal (@rev char)) in E. rewrite rev_involutive in E.
    contradiction.
  - apply Forall_rev, H.
Qed.

Lemma nonBlank_blank (piece : jsstring) :
  Forall (fun c => isWhiteSpace c = true) piece -> nonBlank piece = false.
Proof.
  intros H. unfold nonBlank. rewrite (trim_blank piece H). reflexivity.
Qed.

(** X19. The tokens the two wrap loops work on (those of [drawRichText]
    and of the bullet branch) are of two kinds only: a word, which is not
    empty and holds no white space, and is the kind the overflow check
    looks at; or a run made of white space only (possibly empty), which
    the check lets through. No token mixes the two. *)
Theorem tokens_are_words_or_blank_runs (size : Q) (defaultFont : Font)
  (text : jsstring) :
  Forall (fun t =>
            (nonBlank (seg_text t) = true
             /\ seg_text t <> []
             /\ Forall (fun c => isWhiteSpace c = false) (seg_text t))
            \/ (nonBlank (seg_text t) = false
                /\ Forall (fun c => isWhiteSpace c = true) (seg_text t)))
    (richTokens W size defaultFont text).
Proof.
  unfold richTokens. apply Forall_flat_map, Forall_forall. intros seg _.
  unfold segmentTokens. apply Forall_map. cbn [seg_text].
  pose proof (splitWs_go_pieces (cleanText seg) [] false) as H.
  unfold splitWs.
  eapply Forall_impl; [|apply H; [constructor | left; reflexivity]].
  intros piece [Hb | [Hne Hw]].
  - right. split; [apply nonBlank_blank, Hb | exact Hb].
  - left. split; [apply nonBlank_word; assumption | split; assumption].
Qed.

End Tokens.
